(** * chip8.c: a shallow embedding of the interpreter skeleton

    The development follows [src/chip8.c] function by function:
    [add_fonts_to_mem], [struct stack] with [push_stack] and [pop_stack],
    [char_to_val], and the locals and fetch/decode/execute loop of [main].

    Conventions.
    - [uint8_t] array cells are [byte]s, so every cell is in range by typing.
    - [uint16_t] scalars are [Z]; arithmetic that C performs at type
      [uint16_t] is followed by an explicit reduction modulo [2^16].
    - A C array is a [list]; an access whose index is outside the array is
      undefined behaviour in C and is modelled by [None].
    - A [printf] of a debug line is modelled by an element of [debug]. *)

From Stdlib Require Import ZArith Lia.
From Stdlib Require Import Strings.Byte.
From stdpp Require Import base option list.

Local Open Scope Z_scope.

(** ** Arrays with C indexing *)

(** [a[i]] as an rvalue. *)
Definition load {A : Type} (a : list A) (i : Z) : option A :=
  if decide (0 <= i) then a !! Z.to_nat i else None.

(** [a[i] = v]. *)
Definition store {A : Type} (a : list A) (i : Z) (v : A) : option (list A) :=
  if decide (0 <= i < Z.of_nat (length a))
  then Some (<[Z.to_nat i := v]> a)
  else None.

(** [for (int i = lo; i < lo + count; i++) body], threading the state and
    stopping at the first undefined access. *)
Fixpoint for_loop {St : Type} (lo : Z) (count : nat)
    (body : Z -> St -> option St) (s : St) : option St :=
  match count with
  | O => Some s
  | S count => s' ← body lo s; for_loop (lo + 1) count body s'
  end.

(** ** Debug output *)

(** The three [printf] calls of the file. *)
Inductive debug : Type :=
| no_more_space (needle : Z)        (* "DEBUG: no more space on the stack: %d\n" *)
| nothing_left_to_pop (needle : Z)  (* "DEBUG: nothing left to pop on the stack: %d\n" *)
| unsupported_key.                  (* "DEBUG: unsupported key pressed" *)

(** ** Integer types *)

Definition UINT16_MAX : Z := 65535.

(** Conversion to [uint16_t]. *)
Definition u16 (z : Z) : Z := z mod 65536.

Definition byte_val (b : byte) : Z := Z.of_N (Byte.to_N b).

(** ** The stack *)

(** [struct stack { uint16_t m[4096]; uint16_t needle; }] *)
Record stack : Type := mk_stack {
  m : list Z;
  needle : Z
}.

(** What the C types guarantee of a [struct stack]. *)
Definition stack_wf (s : stack) : Prop :=
  length (m s) = 4096%nat /\ 0 <= needle s <= UINT16_MAX.

(** [void push_stack(struct stack *s, uint16_t val)] *)
Definition push_stack (s : stack) (val : Z) : option (stack * list debug) :=
  if decide (needle s < UINT16_MAX) then
    m' ← store (m s) (needle s) val;
    Some (mk_stack m' (u16 (needle s + 1)), [])
  else
    Some (s, [no_more_space (needle s)]).

(** [uint16_t pop_stack(struct stack *s)]: the returned value, the stack
    afterwards and what was printed. *)
Definition pop_stack (s : stack) : option (Z * stack * list debug) :=
  if decide (needle s > 0) then
    popped ← load (m s) (needle s);
    Some (popped, mk_stack (m s) (u16 (needle s - 1)), [])
  else
    Some (0, s, [nothing_left_to_pop (needle s)]).

(** A stack right after zero-initialisation. *)
Definition empty_stack : stack := mk_stack (replicate 4096 0) 0.

(** [push_stack] for each value of a list in turn; the debug lines are
    collected in order. *)
Fixpoint push_all (s : stack) (vals : list Z) : option (stack * list debug) :=
  match vals with
  | [] => Some (s, [])
  | v :: vals =>
      '(s1, out1) ← push_stack s v;
      '(s2, out2) ← push_all s1 vals;
      Some (s2, out1 ++ out2)
  end.

(** ** The keypad *)

(** The code of a character constant such as ['q']. *)
Definition chr (c : byte) : Z := byte_val c.

(** [uint8_t char_to_val(int userInput)]: the returned value and what was
    printed. The [switch] has pairwise distinct labels, so it is a chain of
    comparisons in the order of the source. *)
Definition char_to_val (userInput : Z) : Z * list debug :=
  if decide (userInput = chr "1") then (0, [])
  else if decide (userInput = chr "2") then (1, [])
  else if decide (userInput = chr "3") then (2, [])
  else if decide (userInput = chr "4") then (3, [])
  else if decide (userInput = chr "q") then (4, [])
  else if decide (userInput = chr "w") then (5, [])
  else if decide (userInput = chr "e") then (6, [])
  else if decide (userInput = chr "r") then (7, [])
  else if decide (userInput = chr "a") then (8, [])
  else if decide (userInput = chr "s") then (9, [])
  else if decide (userInput = chr "d") then (10, [])
  else if decide (userInput = chr "f") then (11, [])
  else if decide (userInput = chr "z") then (12, [])
  else if decide (userInput = chr "x") then (13, [])
  else if decide (userInput = chr "c") then (14, [])
  else if decide (userInput = chr "v") then (15, [])
  else (16, [unsupported_key]).

(** The sixteen [case] labels, in the order of the source. *)
Definition keys : list byte :=
  ["1"; "2"; "3"; "4"; "q"; "w"; "e"; "r";
   "a"; "s"; "d"; "f"; "z"; "x"; "c"; "v"]%byte.

(** ** The font *)

(** [uint8_t fontData[16][5]] *)
Definition fontData : list (list byte) :=
  [ [xf0; x90; x90; x90; xf0];  (* 0 *)
    [x20; x60; x20; x20; x70];  (* 1 *)
    [xf0; x10; xf0; x80; xf0];  (* 2 *)
    [xf0; x10; xf0; x10; xf0];  (* 3 *)
    [x90; x90; xf0; x10; x10];  (* 4 *)
    [xf0; x80; xf0; x10; xf0];  (* 5 *)
    [xf0; x80; xf0; x90; xf0];  (* 6 *)
    [xf0; x10; x20; x40; x40];  (* 7 *)
    [xf0; x90; xf0; x90; xf0];  (* 8 *)
    [xf0; x90; xf0; x10; xf0];  (* 9 *)
    [xf0; x90; xf0; x90; x90];  (* A *)
    [xe0; x90; xe0; x90; xe0];  (* B *)
    [xf0; x80; x80; x80; xf0];  (* C *)
    [xe0; x90; x90; x90; xe0];  (* D *)
    [xf0; x80; xf0; x80; xf0];  (* E *)
    [xf0; x80; xf0; x80; x80]   (* F *) ].

(** [void add_fonts_to_mem(uint8_t *mem)]: the two nested [for] loops. *)
Definition add_fonts_to_mem (mem : list byte) : option (list byte) :=
  for_loop 0 16 (fun ii mem =>
    for_loop 0 5 (fun jj mem =>
      row ← load fontData ii;
      b ← load row jj;
      store mem (80 + ii * 5 + jj) b) mem) mem.

(** ** [main] *)

Module main.

(** The interpreter state declared at the top of [main]. *)
Record locals : Type := mk_locals {
  mem : list byte;              (* uint8_t mem[4096] *)
  display : list (list byte);   (* uint8_t display[32][64] *)
  stack : list Z;               (* uint16_t stack[4096] *)
  delay_timer : Z;              (* uint8_t *)
  sound_timer : Z;              (* uint8_t *)
  reg_index : Z;                (* uint16_t *)
  pc : Z;                       (* uint16_t *)
  interpret : Z                 (* uint8_t *)
}.

Definition mem_len : Z := 4096.
Definition display_rows : Z := 32.
Definition display_columns : Z := 64.

Definition set_pc (v : Z) (s : locals) : locals :=
  mk_locals (mem s) (display s) (stack s) (delay_timer s) (sound_timer s)
            (reg_index s) v (interpret s).

Definition set_mem (v : list byte) (s : locals) : locals :=
  mk_locals v (display s) (stack s) (delay_timer s) (sound_timer s)
            (reg_index s) (pc s) (interpret s).

(** The declarations and initialisers up to [uint8_t interpret = 1]. *)
Definition init : option locals :=
  mem ← add_fonts_to_mem (replicate 4096 x00);
  Some {| mem := mem;
          display := replicate 32 (replicate 64 x00);
          stack := replicate 4096 0;
          delay_timer := 0;
          sound_timer := 0;
          reg_index := 0;
          pc := 512;
          interpret := 1 |}.

(** The window is then opened and events are polled until the user quits;
    none of this reads or writes [locals]. It is modelled apart, in
    [event_loop] and [run] below. *)

(** The six masks of the decode step. *)
Record decoded : Type := mk_decoded {
  op : Z; X : Z; Y : Z; N : Z; NN : Z; NNN : Z
}.

Definition decode (instr : Z) : decoded :=
  {| op := u16 (Z.land instr 0xF000);
     X := u16 (Z.land instr 0x0F00);
     Y := u16 (Z.land instr 0x00F0);
     N := u16 (Z.land instr 0x000F);
     NN := u16 (Z.land instr 0x00FF);
     NNN := u16 (Z.land instr 0x0FFF) |}.

(** [uint16_t instr = mem[pc] << 8 | mem[pc + 1];]
    The index [pc + 1] is computed at type [int] and does not wrap. *)
Definition fetch (s : locals) : option Z :=
  hi ← load (mem s) (pc s);
  lo ← load (mem s) (pc s + 1);
  Some (u16 (Z.lor (Z.shiftl (byte_val hi) 8) (byte_val lo))).

(** [switch (instr) { case 0x00E0: /* clear screen */ break; }] *)
Definition execute (instr : Z) (s : locals) : locals :=
  match instr with
  | 0x00E0 => (* clear screen *) s
  | _ => s
  end.

(** What one pass through the loop body computes: the fetched word, the
    decoded fields (block-scoped, gone at the end of the pass) and the
    locals that survive into the next pass. *)
Record pass : Type := mk_pass {
  instr : Z;
  fields : decoded;
  after : locals
}.

(** The body of [while (interpret)]: fetch, [pc += 2], decode, execute. *)
Definition body (s : locals) : option pass :=
  instr ← fetch s;
  let s := set_pc (u16 (pc s + 2)) s in
  let fields := decode instr in
  Some (mk_pass instr fields (execute instr s)).

Definition step (s : locals) : option locals := after <$> body s.

(** At most [fuel] passes of [while (interpret) { ... }]. *)
Fixpoint loop (fuel : nat) (s : locals) : option locals :=
  match fuel with
  | O => Some s
  | S fuel =>
      if decide (interpret s = 0) then Some s
      else s' ← step s; loop fuel s'
  end.

(** [mem[80] = 0xF0;] after the loop. *)
Definition after_loop (s : locals) : option locals :=
  mem' ← store (mem s) 80 xf0;
  Some (set_mem mem' s).

End main.

(** ** Fixtures

    Concrete states on which the statements below are evaluated. *)

(** Memory as [add_fonts_to_mem] leaves a zeroed [mem]. *)
Definition font_image : list byte :=
  replicate 80 x00 ++ concat fontData ++ replicate 3936 x00.

(** [bytes] laid over [a] from index [addr] on. *)
Definition overlay {A : Type} (addr : nat) (bytes : list A) (a : list A) : list A :=
  take addr a ++ bytes ++ drop (addr + length bytes) a.

(** The locals when the loop is entered. *)
Definition booted : main.locals :=
  main.mk_locals font_image (replicate 32 (replicate 64 x00))
                 (replicate 4096 0) 0 0 0 512 1.

(** [booted] with [bytes] at the program counter. *)
Definition booted_with (bytes : list byte) : main.locals :=
  main.set_mem (overlay 512 bytes font_image) booted.

(** The locals of a machine about to run the draw word 0xD015 twice, with
    the index register on the glyph of 0. *)
Definition draw_twice_state : main.locals :=
  main.mk_locals (overlay 512 [xd0; x15; xd0; x15] font_image)
                 (replicate 32 (replicate 64 x00))
                 (replicate 4096 0) 0 0 80 512 1.

(** What the two passes over [draw_twice_state] compute. *)
Definition draw_pass_1 : main.pass :=
  main.mk_pass 0xD015 (main.decode 0xD015) (main.set_pc 514 draw_twice_state).

Definition draw_pass_2 : main.pass :=
  main.mk_pass 0xD015 (main.decode 0xD015) (main.set_pc 516 draw_twice_state).

(** The locals of a machine about to run 0x00E0 with the top-left pixel
    lit. *)
Definition lit_state : main.locals :=
  main.mk_locals (overlay 512 [x00; xe0] font_image)
                 ((x01 :: replicate 63 x00) :: replicate 31 (replicate 64 x00))
                 (replicate 4096 0) 0 0 0 512 1.

(** The eighty bytes from offset 80 on. *)
Definition glyphs (mem : list byte) : list byte := take 80 (drop 80 mem).

(** [push_stack] directly followed by [pop_stack]: the value popped and the
    stack afterwards. *)
Definition push_then_pop (s : stack) (val : Z) : option (Z * stack) :=
  '(s1, _) ← push_stack s val;
  '(popped, s2, _) ← pop_stack s1;
  Some (popped, s2).

(** ** Sequences of operations *)

(** [a[i] = v0; a[i+1] = v1; ...] for the values of a list. *)
Fixpoint write_list {A : Type} (a : list A) (i : Z) (vs : list A)
    : option (list A) :=
  match vs with
  | [] => Some a
  | v :: vs => a' ← store a i v; write_list a' (i + 1) vs
  end.

(** [count] calls of [pop_stack] in a row: the values returned, first call
    first, the stack afterwards and the debug lines in order. *)
Fixpoint pop_all (s : stack) (count : nat)
    : option (list Z * stack * list debug) :=
  match count with
  | O => Some ([], s, [])
  | S count =>
      '(v, s1, out1) ← pop_stack s;
      '(vs, s2, out2) ← pop_all s1 count;
      Some (v :: vs, s2, out1 ++ out2)
  end.

(** ** The window and the whole of [main] *)

(** One answer of [SDL_PollEvent(&e)]: 0, the queue being empty, or 1 with
    [e.type] filled in. *)
Inductive poll : Type :=
| no_event
| event (type : Z).

(** What the SDL library answers to [main]: the result of [SDL_Init], whether
    [SDL_CreateWindow] returned a window rather than [NULL], and the answers
    of the successive calls of [SDL_PollEvent]. *)
Record sdl : Type := mk_sdl {
  SDL_Init_result : Z;
  window : bool;
  polls : list poll
}.

Section Window.
(** The constant of the SDL header for the quit event. *)
Variable SDL_QUIT : Z.

(** [while (SDL_PollEvent(&e) != 0) { if (e.type == SDL_QUIT) quit = true; }]
    The loop takes the answers up to and including the first [no_event];
    [None] when the answers run out first. *)
Fixpoint drain (quit : bool) (answers : list poll) : option (bool * list poll) :=
  match answers with
  | [] => None
  | no_event :: rest => Some (quit, rest)
  | event type :: rest =>
      drain (if decide (type = SDL_QUIT) then true else quit) rest
  end.

(** At most [fuel] passes of [while (!quit) { ... }]: the answers left when
    the loop is over, [None] when the answers or the fuel run out first. *)
Fixpoint event_loop (fuel : nat) (quit : bool) (answers : list poll)
    : option (list poll) :=
  match fuel with
  | O => None
  | S fuel =>
      if quit then Some answers
      else '(quit', rest) ← drain quit answers; event_loop fuel quit' rest
  end.

(** Each pass of the outer loop takes at least one answer, so this is
    fuel enough for any list of answers. *)
Definition poll_until_quit (answers : list poll) : option (list poll) :=
  event_loop (S (length answers)) false answers.

(** How a run of [main] stands when the answers or the fuel are used up. *)
Inductive outcome : Type :=
| returned (code : Z)            (* [return code;] *)
| polling                        (* inside [while (!quit)] *)
| interpreting (s : main.locals) (* inside [while (interpret)] *)
| undefined.                     (* an access outside an array *)

(** [int main()], with at most [fuel] passes of [while (interpret)]. The
    lines written to [stderr] on the two failure paths are not recorded. *)
Definition run (env : sdl) (fuel : nat) : outcome :=
  match main.init with
  | None => undefined
  | Some s =>
      if decide (SDL_Init_result env <> 0) then returned 1
      else if negb (window env) then returned 1
      else match poll_until_quit (polls env) with
           | None => polling
           | Some _ =>
               match main.loop fuel s with
               | None => undefined
               | Some s' =>
                   if decide (main.interpret s' = 0) then
                     match main.after_loop s' with
                     | None => undefined
                     | Some _ => returned 0
                     end
                   else interpreting s'
               end
           end
  end.

End Window.

(** * Properties *)

(** ** Arrays *)

Section Arrays.
Context {A : Type}.
Implicit Types (a : list A) (i j : Z) (v : A).

Lemma load_Some_lt a i v :
  load a i = Some v -> 0 <= i < Z.of_nat (length a).
Proof.
  unfold load. case_decide; [|done].
  intros Hl%lookup_lt_Some. lia.
Qed.

Lemma load_in_bounds a i :
  0 <= i < Z.of_nat (length a) -> is_Some (load a i).
Proof.
  intros Hi. unfold load. rewrite decide_True by lia.
  apply lookup_lt_is_Some. lia.
Qed.

Lemma load_out_of_bounds a i :
  Z.of_nat (length a) <= i -> load a i = None.
Proof.
  intros Hi. unfold load. case_decide; [|done].
  apply lookup_ge_None. lia.
Qed.

Lemma store_in_bounds a i v :
  0 <= i < Z.of_nat (length a) ->
  store a i v = Some (<[Z.to_nat i := v]> a).
Proof. intros Hi. unfold store. by rewrite decide_True. Qed.

Lemma store_out_of_bounds a i v :
  Z.of_nat (length a) <= i -> store a i v = None.
Proof. intros Hi. unfold store. rewrite decide_False; [done | lia]. Qed.

Lemma store_length a a' i v :
  store a i v = Some a' -> length a' = length a.
Proof.
  unfold store. case_decide; [|done].
  intros [= <-]. apply length_insert.
Qed.

Lemma load_store_ne a a' i j v :
  store a i v = Some a' -> i <> j -> load a' j = load a j.
Proof.
  unfold store, load. case_decide as Hi; [|done].
  intros [= <-] Hne. case_decide; [|done].
  apply list_lookup_insert_ne. lia.
Qed.

(** Storing the value a cell already holds changes nothing. *)
Lemma store_same a i v :
  load a i = Some v -> store a i v = Some a.
Proof.
  intros Hl. pose proof (load_Some_lt _ _ _ Hl) as Hi.
  rewrite store_in_bounds by done. f_equal.
  apply list_insert_id. unfold load in Hl.
  by rewrite decide_True in Hl by lia.
Qed.

End Arrays.

(** ** Integers and bit fields *)

Lemma byte_val_range b : 0 <= byte_val b <= 255.
Proof.
  unfold byte_val. pose proof (Byte.to_N_bounded b). lia.
Qed.

Lemma u16_small z : 0 <= z < 65536 -> u16 z = z.
Proof. intros Hz. unfold u16. by apply Z.mod_small. Qed.

(** A byte shifted up by eight bits shares no bit with a byte. *)
Lemma lor_shiftl_8 hi lo :
  0 <= lo < 256 -> Z.lor (Z.shiftl hi 8) lo = 256 * hi + lo.
Proof.
  intros Hlo.
  assert (Z.land (Z.shiftl hi 8) lo = 0) as Hdisj.
  { apply Z.bits_inj'. intros n Hn.
    rewrite Z.land_spec, Z.bits_0.
    destruct (Z.lt_ge_cases n 8) as [Hlt | Hge].
    - by rewrite Z.shiftl_spec_low.
    - apply andb_false_intro2.
      rewrite <- (Z.mod_small lo (2 ^ 8)) by (change (2 ^ 8) with 256; lia).
      apply Z.mod_pow2_bits_high. lia. }
  pose proof (Z.add_lor_land (Z.shiftl hi 8) lo) as Hadd.
  rewrite Hdisj in Hadd. rewrite Z.shiftl_mul_pow2 in Hadd at 2 by lia.
  change (2 ^ 8) with 256 in Hadd. lia.
Qed.

(** Masking with [len] ones placed [sh] bits up selects the digits
    [sh .. sh+len-1] and leaves them in place. *)
Lemma land_field w sh len :
  0 <= sh -> 0 <= len ->
  Z.land w (Z.shiftl (Z.ones len) sh) = 2 ^ sh * ((w / 2 ^ sh) mod 2 ^ len).
Proof.
  intros Hsh Hlen.
  rewrite <- Z.shiftr_div_pow2, <- Z.land_ones, Z.mul_comm,
    <- Z.shiftl_mul_pow2 by done.
  apply Z.bits_inj'. intros n Hn.
  rewrite Z.land_spec, !Z.shiftl_spec, Z.land_spec by done.
  destruct (Z.lt_ge_cases n sh) as [Hlt | Hge].
  - rewrite !(Z.testbit_neg_r _ (n - sh)) by lia.
    by rewrite andb_false_r.
  - rewrite Z.shiftr_spec by lia.
    by replace (n - sh + sh) with n by lia.
Qed.

Lemma field_range w sh len :
  0 <= sh -> 0 <= len ->
  0 <= 2 ^ sh * ((w / 2 ^ sh) mod 2 ^ len) <= 2 ^ sh * (2 ^ len - 1).
Proof.
  intros Hsh Hlen.
  assert (0 < 2 ^ sh) by (apply Z.pow_pos_nonneg; lia).
  assert (0 < 2 ^ len) by (apply Z.pow_pos_nonneg; lia).
  pose proof (Z.mod_pos_bound (w / 2 ^ sh) (2 ^ len)). nia.
Qed.

(** ** The stack *)

Section Stack.
Implicit Types (s : stack) (val : Z).

Lemma push_stack_stores s val :
  0 <= needle s < Z.of_nat (length (m s)) ->
  needle s < UINT16_MAX ->
  push_stack s val =
    Some (mk_stack (<[Z.to_nat (needle s) := val]> (m s)) (needle s + 1), []).
Proof.
  intros Hin Hmax. unfold push_stack, UINT16_MAX in *.
  rewrite decide_True by done.
  rewrite store_in_bounds by done. simpl.
  by rewrite u16_small by lia.
Qed.

(** Between the end of the array and the guard's constant the write goes
    past [m]. *)
Lemma push_stack_past_array s val :
  Z.of_nat (length (m s)) <= needle s < UINT16_MAX ->
  push_stack s val = None.
Proof.
  intros [Hlo Hhi]. unfold push_stack.
  rewrite decide_True by done.
  by rewrite store_out_of_bounds.
Qed.

Lemma push_stack_refused s val :
  UINT16_MAX <= needle s ->
  push_stack s val = Some (s, [no_more_space (needle s)]).
Proof.
  intros Hn. unfold push_stack. rewrite decide_False; [done | lia].
Qed.

Lemma pop_stack_empty s :
  needle s <= 0 ->
  pop_stack s = Some (0, s, [nothing_left_to_pop (needle s)]).
Proof.
  intros Hn. unfold pop_stack. rewrite decide_False; [done | lia].
Qed.

Lemma pop_stack_reads_at_needle s x :
  0 < needle s -> load (m s) (needle s) = Some x ->
  pop_stack s = Some (x, mk_stack (m s) (u16 (needle s - 1)), []).
Proof.
  intros Hn Hx. unfold pop_stack.
  rewrite decide_True by lia. by rewrite Hx.
Qed.

(** When the stack is full to the last slot but one or fuller, the read of
    [pop_stack] is itself past the array. *)
Lemma pop_stack_past_array s :
  0 < needle s -> Z.of_nat (length (m s)) <= needle s ->
  pop_stack s = None.
Proof.
  intros Hn Hlen. unfold pop_stack.
  rewrite decide_True by lia. by rewrite load_out_of_bounds.
Qed.

(** The pair push, pop restores the depth, and hands back what the slot
    above the pushed value held before, whatever was pushed. *)
Lemma push_then_pop_slot_above s val x :
  0 <= needle s -> needle s + 1 < UINT16_MAX ->
  load (m s) (needle s + 1) = Some x ->
  push_then_pop s val =
    Some (x, mk_stack (<[Z.to_nat (needle s) := val]> (m s)) (needle s)).
Proof.
  intros Hn Hmax Hx. pose proof (load_Some_lt _ _ _ Hx) as Hlt.
  unfold push_then_pop, UINT16_MAX in *.
  rewrite push_stack_stores by (unfold UINT16_MAX; lia). simpl.
  assert (load (<[Z.to_nat (needle s) := val]> (m s)) (needle s + 1) = Some x)
    as Hx'.
  { erewrite load_store_ne; [done | by apply store_in_bounds; lia | lia]. }
  erewrite pop_stack_reads_at_needle; [|simpl; lia|done]. simpl.
  rewrite u16_small by lia. do 3 f_equal. lia.
Qed.

(** Pushes that stay inside the array all succeed and print nothing; the
    values land in consecutive slots from the old needle on. *)
Lemma push_all_succeeds vals : forall s,
  0 <= needle s ->
  needle s + Z.of_nat (length vals) <= Z.of_nat (length (m s)) ->
  Z.of_nat (length (m s)) <= UINT16_MAX ->
  push_all s vals =
    Some (mk_stack (overlay (Z.to_nat (needle s)) vals (m s))
                   (needle s + Z.of_nat (length vals)), []).
Proof.
  unfold overlay.
  induction vals as [|v vals IH]; intros s Hn Hfit Hcap; simpl in *.
  - rewrite Nat.add_0_r, take_drop, Z.add_0_r. by destruct s.
  - rewrite push_stack_stores by lia. simpl.
    rewrite IH; simpl; rewrite ?length_insert; [|lia..].
    simpl. do 3 f_equal; [|lia].
    replace (Z.to_nat (needle s + 1)) with (S (Z.to_nat (needle s))) by lia.
    erewrite take_S_r by (apply list_lookup_insert_eq; lia).
    rewrite take_insert_ge by lia.
    rewrite drop_insert_lt by lia.
    rewrite <- app_assoc. simpl. do 4 f_equal. lia.
Qed.

End Stack.

(** *** Claims about the stack *)

(** Claim C2 (push directly followed by pop returns the pushed value and
    restores the depth). The code reads [m[needle]] before decrementing, one
    slot above the value just pushed: on a zeroed, empty stack, pushing 5 and
    popping returns 0. The depth does return to 0 and the 5 stays in slot 0. *)
Theorem push_5_then_pop_returns_0 :
  push_then_pop empty_stack 5 =
    Some (0, mk_stack (5 :: replicate 4095 0) 0).
Proof. vm_compute. reflexivity. Qed.

(** Twelve pushes onto the empty stack succeed, whatever the addresses. *)
Lemma push_12_succeed vals :
  length vals = 12%nat ->
  push_all empty_stack vals =
    Some (mk_stack (vals ++ replicate 4084 0) 12, []).
Proof.
  intros Hlen.
  pose proof (push_all_succeeds vals empty_stack) as Hpush.
  change (needle empty_stack) with 0 in Hpush.
  change (m empty_stack) with (replicate 4096 0) in Hpush.
  rewrite length_replicate, Hlen in Hpush.
  rewrite Hpush by (unfold UINT16_MAX; lia).
  unfold overlay. change (Z.to_nat 0) with 0%nat.
  rewrite take_0, Hlen, drop_replicate. reflexivity.
Qed.

(** Claim C5 (a push onto a stack at capacity fails and leaves the stack
    unchanged). With all 4096 slots of [m] in use the guard
    [needle < UINT16_MAX] still lets the push through, and the write
    [m[4096] = val] is past the end of the array: the push has no defined
    result. *)
Theorem push_on_full_array_is_undefined :
  push_stack (mk_stack (replicate 4096 7) 4096) 9 = None.
Proof. vm_compute. reflexivity. Qed.

(** Claim C6, as the spec words it, fails: popping the empty stack returns a
    value, 0, the same value a pop of a one-deep stack whose slot 1 holds 0
    returns; only the debug line tells them apart. *)
Lemma pop_empty_returns_a_value :
  pop_stack empty_stack = Some (0, empty_stack, [nothing_left_to_pop 0]) /\
  pop_stack (mk_stack (replicate 4096 0) 1) = Some (0, empty_stack, []).
Proof. split; vm_compute; reflexivity. Qed.

(** Claim C6, amended: popping a stack of depth 0 prints a debug line and
    returns 0 with the stack untouched. While the needle is within the 4096
    slots of [m], [push_stack] and [pop_stack] have a result and move the
    needle by exactly one, without wrapping: a pop at depth 1..4095 returns
    [m[needle]] and leaves the needle one lower, a push at depth below 4096
    stores the value and leaves the needle one higher. Nothing is said of a
    needle at 4096 or beyond, where the accesses leave the array. *)
Theorem pop_empty_returns_0_needle_never_wraps (s : stack) :
  stack_wf s ->
  (needle s = 0 ->
   pop_stack s = Some (0, s, [nothing_left_to_pop 0])) /\
  (0 < needle s < 4096 ->
   exists v, load (m s) (needle s) = Some v /\
             pop_stack s = Some (v, mk_stack (m s) (needle s - 1), [])) /\
  (needle s < 4096 ->
   forall val,
     push_stack s val =
       Some (mk_stack (<[Z.to_nat (needle s) := val]> (m s)) (needle s + 1),
             [])).
Proof.
  unfold stack_wf, UINT16_MAX. intros [Hlen Hn]. split; [|split].
  - intros H0. rewrite pop_stack_empty by lia. by rewrite H0.
  - intros Hin.
    destruct (load_in_bounds (m s) (needle s)) as [v Hv]; [lia |].
    exists v. split; [done |].
    rewrite (pop_stack_reads_at_needle s v) by (lia || done).
    by rewrite u16_small by lia.
  - intros Hin val. apply push_stack_stores; unfold UINT16_MAX; lia.
Qed.

Lemma pop_empty_returns_0_needle_never_wraps_witness :
  stack_wf empty_stack /\
  pop_stack empty_stack = Some (0, empty_stack, [nothing_left_to_pop 0]) /\
  push_stack empty_stack 5 =
    Some (mk_stack (<[0%nat := 5]> (replicate 4096 0)) 1, []) /\
  stack_wf (mk_stack (replicate 4096 0) 4095) /\
  exists v, load (replicate 4096 0) 4095 = Some v /\
            pop_stack (mk_stack (replicate 4096 0) 4095) =
              Some (v, mk_stack (replicate 4096 0) 4094, []).
Proof.
  assert (stack_wf empty_stack) as Hwf
    by (vm_compute; split; [done | split; discriminate]).
  assert (stack_wf (mk_stack (replicate 4096 0) 4095)) as Hwf'
    by (vm_compute; split; [done | split; discriminate]).
  split; [exact Hwf |].
  split.
  { exact (proj1 (pop_empty_returns_0_needle_never_wraps empty_stack Hwf)
                 eq_refl). }
  split.
  { exact (proj2 (proj2 (pop_empty_returns_0_needle_never_wraps
                           empty_stack Hwf)) eq_refl 5). }
  split; [exact Hwf' |].
  exact (proj1 (proj2 (pop_empty_returns_0_needle_never_wraps _ Hwf'))
               (conj eq_refl eq_refl)).
Defined.

Lemma load_lookup {A : Type} (a : list A) i :
  0 <= i -> load a i = a !! Z.to_nat i.
Proof. intros Hi. unfold load. by rewrite decide_True. Qed.

(** ** The stack, beyond one push and one pop *)

Section StackMore.
Implicit Types (s : stack) (val : Z).

(** Property X4. What [push_stack] does is decided by where the needle stands: inside the
    array the value is stored at the needle and the needle moves up by one,
    silently; from the end of the array up to [UINT16_MAX - 1] the store is
    outside the array; at [UINT16_MAX] the push is refused with a debug line
    and the stack stays as it is. *)
Theorem push_stack_by_needle s val :
  0 <= needle s -> Z.of_nat (length (m s)) <= UINT16_MAX ->
  (needle s < Z.of_nat (length (m s)) ->
   push_stack s val =
     Some (mk_stack (<[Z.to_nat (needle s) := val]> (m s)) (needle s + 1), [])) /\
  (Z.of_nat (length (m s)) <= needle s < UINT16_MAX ->
   push_stack s val = None) /\
  (UINT16_MAX <= needle s ->
   push_stack s val = Some (s, [no_more_space (needle s)])).
Proof.
  intros Hn Hcap. split; [|split].
  - intros Hin. apply push_stack_stores; lia.
  - apply push_stack_past_array.
  - apply push_stack_refused.
Qed.

Lemma push_stack_by_needle_witness :
  push_stack (mk_stack [7; 8; 9] 1) 5 = Some (mk_stack [7; 5; 9] 2, []) /\
  push_stack (mk_stack [7; 8; 9] 3) 5 = None /\
  push_stack (mk_stack [7; 8; 9] 65535) 5 =
    Some (mk_stack [7; 8; 9] 65535, [no_more_space 65535]).
Proof.
  split; [|split].
  - apply (push_stack_by_needle (mk_stack [7; 8; 9] 1) 5);
      unfold UINT16_MAX; simpl; lia.
  - apply (push_stack_by_needle (mk_stack [7; 8; 9] 3) 5);
      unfold UINT16_MAX; simpl; lia.
  - apply (push_stack_by_needle (mk_stack [7; 8; 9] 65535) 5);
      unfold UINT16_MAX; simpl; lia.
Defined.

(** Property X5. A push that has a result leaves every slot but the one at the old needle
    as it was, and does not change the number of slots. *)
Theorem push_stack_touches_one_slot s val s' out i :
  push_stack s val = Some (s', out) -> i <> needle s ->
  length (m s') = length (m s) /\ load (m s') i = load (m s) i.
Proof.
  unfold push_stack. case_decide.
  - destruct (store (m s) (needle s) val) as [m'|] eqn:Hst; [|done]. simpl.
    intros [= <- <-] Hi. simpl. split.
    + by eapply store_length.
    + eapply load_store_ne; [done | congruence].
  - by intros [= <- <-].
Qed.

Lemma push_stack_touches_one_slot_witness :
  length (m (mk_stack [7; 5; 9] 2)) = length (m (mk_stack [7; 8; 9] 1)) /\
  load (m (mk_stack [7; 5; 9] 2)) 2 = load (m (mk_stack [7; 8; 9] 1)) 2.
Proof.
  apply (push_stack_touches_one_slot (mk_stack [7; 8; 9] 1) 5 _ [] 2);
    [reflexivity | simpl; lia].
Defined.

(** Property X6. [pop_stack] never writes to the slots. It prints its debug line exactly
    when the needle is at 0, and then it returns 0 and leaves the needle
    where it is; otherwise the needle moves down by one and the value
    returned is the one in the slot at the old needle. *)
Theorem pop_stack_reads_only s v s' out :
  0 <= needle s <= UINT16_MAX ->
  pop_stack s = Some (v, s', out) ->
  m s' = m s /\
  (needle s = 0 ->
   v = 0 /\ needle s' = 0 /\ out = [nothing_left_to_pop 0]) /\
  (0 < needle s ->
   load (m s) (needle s) = Some v /\ needle s' = needle s - 1 /\ out = []).
Proof.
  unfold UINT16_MAX. intros Hn. unfold pop_stack. case_decide as Hpos.
  - destruct (load (m s) (needle s)) as [x|]; [|done]. simpl.
    intros [= <- <- <-]. simpl. rewrite u16_small by lia.
    repeat split; lia.
  - intros [= <- <- <-]. assert (needle s = 0) as -> by lia.
    repeat split; lia.
Qed.

Lemma pop_stack_reads_only_witness :
  m (mk_stack [7; 8; 9] 1) = m (mk_stack [7; 8; 9] 2) /\
  load (m (mk_stack [7; 8; 9] 2)) 2 = Some 9 /\
  needle (mk_stack [7; 8; 9] 1) = 2 - 1.
Proof.
  destruct (pop_stack_reads_only (mk_stack [7; 8; 9] 2) 9
              (mk_stack [7; 8; 9] 1) [])
    as (Hm & _ & Hpos);
    [unfold UINT16_MAX; simpl; lia | reflexivity |].
  destruct Hpos as (Hload & Hneedle & _); [simpl; lia |].
  exact (conj Hm (conj Hload Hneedle)).
Defined.

(** Property X7. The bottom slot is never read: whatever slot 0 holds, [pop_stack]
    returns the same value, moves the needle the same way and prints the
    same. The value that the first push onto an empty stack stores there
    cannot be popped. *)
Theorem pop_stack_never_reads_slot_0 s v s' out x :
  pop_stack s = Some (v, s', out) ->
  pop_stack (mk_stack (<[0%nat := x]> (m s)) (needle s)) =
    Some (v, mk_stack (<[0%nat := x]> (m s)) (needle s'), out).
Proof.
  unfold pop_stack. simpl. case_decide as Hpos.
  - destruct (load (m s) (needle s)) as [y|] eqn:Hy; [|done]. simpl.
    intros [= <- <- <-]. simpl.
    assert (load (<[0%nat := x]> (m s)) (needle s) = Some y) as ->; [|done].
    rewrite load_lookup in * by lia.
    rewrite list_lookup_insert_ne by lia. done.
  - by intros [= <- <- <-].
Qed.

Lemma pop_stack_never_reads_slot_0_witness :
  pop_stack (mk_stack [7; 8; 9] 2) = Some (9, mk_stack [7; 8; 9] 1, []) /\
  pop_stack (mk_stack [1000; 8; 9] 2) = Some (9, mk_stack [1000; 8; 9] 1, []).
Proof.
  assert (pop_stack (mk_stack [7; 8; 9] 2) = Some (9, mk_stack [7; 8; 9] 1, []))
    as Hpop by reflexivity.
  split; [exact Hpop |].
  exact (pop_stack_never_reads_slot_0 _ _ _ _ 1000 Hpop).
Defined.

(** [count] pops from a needle inside the array read the slots from the
    needle downwards and leave the slots alone. *)
Lemma pop_all_reads (slots : list Z) count : forall n,
  Z.of_nat count <= n -> n < Z.of_nat (length slots) -> n <= UINT16_MAX ->
  pop_all (mk_stack slots n) count =
    Some (reverse (take count (drop (S (Z.to_nat n - count)) slots)),
          mk_stack slots (n - Z.of_nat count), []).
Proof.
  unfold UINT16_MAX.
  induction count as [|count IH]; intros n Hcount Hn Hmax; cbn [pop_all].
  - by rewrite take_0, Z.sub_0_r.
  - destruct (lookup_lt_is_Some_2 slots (Z.to_nat n)) as [x Hx]; [lia |].
    rewrite (pop_stack_reads_at_needle _ x);
      [|simpl; lia | simpl; by rewrite load_lookup by lia].
    simpl. rewrite u16_small by lia.
    rewrite IH by lia. simpl. do 2 f_equal.
    replace (S (Z.to_nat (n - 1) - count)) with (Z.to_nat n - count)%nat
      by lia.
    replace (S (Z.to_nat n - S count)) with (Z.to_nat n - count)%nat
      by lia.
    erewrite (take_S_r _ count x).
    + rewrite reverse_snoc. do 2 f_equal. lia.
    + rewrite lookup_drop. rewrite <- Hx. f_equal. lia.
Qed.

(** Property X8. As many pops as there were pushes do not give the pushed values back
    in reverse: the first pop returns what the slot above the last pushed
    value held before the pushes, the following ones return the pushed values
    from the last down to the second, and the value pushed first is not
    returned. The needle is back where it was. *)
Theorem pop_all_after_push_all s vals x :
  0 <= needle s -> vals <> [] ->
  Z.of_nat (length (m s)) <= UINT16_MAX ->
  load (m s) (needle s + Z.of_nat (length vals)) = Some x ->
  push_all s vals ≫= (fun '(s1, _) => pop_all s1 (length vals)) =
    Some (x :: reverse (tail vals),
          mk_stack (overlay (Z.to_nat (needle s)) vals (m s)) (needle s),
          []).
Proof.
  intros Hn Hvals Hcap Hx.
  pose proof (load_Some_lt _ _ _ Hx) as Hlt.
  rewrite load_lookup in Hx by lia.
  rewrite push_all_succeeds by lia. simpl.
  assert (length (overlay (Z.to_nat (needle s)) vals (m s)) = length (m s))
    as Hlen.
  { unfold overlay.
    rewrite !length_app, length_take, length_drop. lia. }
  rewrite pop_all_reads by (rewrite ?Hlen; lia).
  replace (needle s + Z.of_nat (length vals) - Z.of_nat (length vals))
    with (needle s) by lia.
  do 3 f_equal.
  replace (S (Z.to_nat (needle s + Z.of_nat (length vals)) - length vals))
    with (length (take (Z.to_nat (needle s)) (m s)) + 1)%nat
    by (rewrite length_take; lia).
  unfold overlay. rewrite <- drop_drop, drop_app_length.
  destruct vals as [|v vals]; [done |]. cbn [tail].
  rewrite <- reverse_snoc. f_equal.
  change (drop 1 ((v :: vals) ++ ?r)) with (vals ++ r).
  cbn [length].
  replace (S (length vals)) with (length vals + 1)%nat at 1 by lia.
  rewrite take_app_add.
  f_equal.
  replace (Z.to_nat (needle s) + S (length vals))%nat
    with (Z.to_nat (needle s + Z.of_nat (S (length vals)))) by lia.
  erewrite drop_S by done. reflexivity.
Qed.

Lemma pop_all_after_push_all_witness :
  push_all (mk_stack [0; 0; 0; 77; 0] 0) [1; 2; 3]
    ≫= (fun '(s1, _) => pop_all s1 3) =
    Some ([77; 3; 2], mk_stack [1; 2; 3; 77; 0] 0, []).
Proof.
  apply (pop_all_after_push_all (mk_stack [0; 0; 0; 77; 0] 0) [1; 2; 3] 77);
    [simpl; lia | discriminate | unfold UINT16_MAX; simpl; lia | reflexivity].
Defined.

(** Property X9. Pushing more values than there are slots left has no defined result:
    the push that finds the needle at 4096 stores outside [m]. *)
Theorem push_all_past_array vals : forall s,
  stack_wf s -> needle s <= 4096 ->
  4096 < needle s + Z.of_nat (length vals) ->
  push_all s vals = None.
Proof.
  unfold stack_wf, UINT16_MAX.
  induction vals as [|v vals IH]; intros s [Hlen Hn] Hmax Hover;
    cbn [push_all length] in *; [lia |].
  destruct (decide (needle s = 4096)) as [Hfull | Hroom].
  - rewrite push_stack_past_array; [done |].
    unfold UINT16_MAX. rewrite Hlen. lia.
  - rewrite push_stack_stores by (unfold UINT16_MAX; rewrite ?Hlen; lia).
    simpl. rewrite IH; [done | | simpl; lia..].
    simpl. rewrite length_insert. split; [done | lia].
Qed.

Lemma push_all_past_array_witness :
  stack_wf (mk_stack (replicate 4096 0) 4094) /\
  push_all (mk_stack (replicate 4096 0) 4094) [1; 2; 3] = None.
Proof.
  assert (stack_wf (mk_stack (replicate 4096 0) 4094)) as Hwf.
  { split; [apply length_replicate | unfold UINT16_MAX; simpl; lia]. }
  split; [exact Hwf |].
  apply (push_all_past_array [1; 2; 3] _ Hwf); simpl; lia.
Defined.

(** Property X10. Once every slot is in use the stack cannot be popped either:
    [pop_stack] reads [m[4096]]. *)
Theorem pop_after_filling_is_undefined vals :
  length vals = 4096%nat ->
  push_all empty_stack vals ≫= (fun '(s1, _) => pop_stack s1) = None.
Proof.
  intros Hlen.
  pose proof (push_all_succeeds vals empty_stack) as Hpush.
  change (needle empty_stack) with 0 in Hpush.
  change (m empty_stack) with (replicate 4096 0) in Hpush.
  rewrite length_replicate, Hlen in Hpush.
  rewrite Hpush by (unfold UINT16_MAX; lia). cbn [mbind option_bind].
  apply pop_stack_past_array; cbn [needle m]; [lia |].
  unfold overlay. change (Z.to_nat 0) with 0%nat.
  rewrite take_0, Hlen, drop_replicate, !length_app, Hlen, length_replicate.
  simpl. lia.
Qed.

Lemma pop_after_filling_is_undefined_witness :
  length (replicate 4096 7) = 4096%nat /\
  push_all empty_stack (replicate 4096 7) ≫= (fun '(s1, _) => pop_stack s1)
    = None.
Proof.
  assert (length (replicate 4096 7) = 4096%nat) as Hlen
    by apply length_replicate.
  split; [exact Hlen |].
  exact (pop_after_filling_is_undefined (replicate 4096 7) Hlen).
Defined.

End StackMore.

(** ** The keypad *)

(** The character codes of the sixteen labels. *)
Lemma key_codes :
  chr <$> keys =
    [49; 50; 51; 52; 113; 119; 101; 114; 97; 115; 100; 102; 122; 120; 99; 118].
Proof. reflexivity. Qed.

(** Claim C10: [char_to_val] never returns more than 16; the sixteen
    characters 1 2 3 4 q w e r a s d f z x c v are mapped, in this order,
    to the codes 0 to 15 (so to pairwise distinct codes within 0x0..0xF);
    every other input yields 16 (and the debug line). *)
Theorem char_to_val_spec :
  (forall userInput, 0 <= (char_to_val userInput).1 <= 16) /\
  (fun c => (char_to_val (chr c)).1) <$> keys =
    [0; 1; 2; 3; 4; 5; 6; 7; 8; 9; 10; 11; 12; 13; 14; 15] /\
  NoDup ((fun c => (char_to_val (chr c)).1) <$> keys) /\
  (forall userInput, userInput ∈ (chr <$> keys) ->
     0 <= (char_to_val userInput).1 <= 15) /\
  (forall userInput, userInput ∉ (chr <$> keys) ->
     char_to_val userInput = (16, [unsupported_key])).
Proof.
  split; [|split; [|split; [|split]]].
  - intros c. unfold char_to_val. repeat case_decide; simpl; lia.
  - reflexivity.
  - change (NoDup [0; 1; 2; 3; 4; 5; 6; 7; 8; 9; 10; 11; 12; 13; 14; 15]).
    repeat (apply NoDup_cons; split;
            [rewrite ?elem_of_cons, elem_of_nil; lia |]).
    apply NoDup_nil_2.
  - intros c. rewrite key_codes, !elem_of_cons, elem_of_nil.
    intros Hc. unfold char_to_val.
    repeat case_decide; simpl; try lia.
    exfalso. unfold chr, byte_val in *. simpl in *. lia.
  - intros c. rewrite key_codes, !elem_of_cons, elem_of_nil.
    intros Hc. unfold char_to_val.
    repeat (case_decide as Heq;
            [exfalso; apply Hc; rewrite Heq; vm_compute; tauto | clear Heq]).
    reflexivity.
Qed.

Lemma char_to_val_spec_witness :
  (113 ∈ (chr <$> keys)) /\ 0 <= (char_to_val 113).1 <= 15 /\
  (0 ∉ (chr <$> keys)) /\ char_to_val 0 = (16, [unsupported_key]).
Proof.
  assert (113 ∈ (chr <$> keys)) as Hin
    by (rewrite key_codes, !elem_of_cons; tauto).
  assert (0 ∉ (chr <$> keys)) as Hout
    by (rewrite key_codes, !elem_of_cons, elem_of_nil; lia).
  destruct char_to_val_spec as (_ & _ & _ & Hkey & Hother).
  exact (conj Hin (conj (Hkey 113 Hin) (conj Hout (Hother 0 Hout)))).
Defined.

(** ** The interpreter loop *)

Import main.

Section Loop.
Implicit Types (s : locals) (word : Z).

(** *** Decode *)

Lemma land_mask_u16 word sh len :
  0 <= sh -> 0 <= len -> sh + len <= 16 ->
  u16 (Z.land word (Z.shiftl (Z.ones len) sh)) =
    2 ^ sh * ((word / 2 ^ sh) mod 2 ^ len).
Proof.
  intros Hsh Hlen Hfit.
  rewrite land_field by done.
  apply u16_small.
  pose proof (field_range word sh len Hsh Hlen) as [Hlo Hhi].
  split; [done |].
  assert (2 ^ sh * 2 ^ len <= 2 ^ 16) as Hpow.
  { rewrite <- Z.pow_add_r by done. apply Z.pow_le_mono_r; lia. }
  assert (0 < 2 ^ sh) by (apply Z.pow_pos_nonneg; lia).
  change (2 ^ 16) with 65536 in Hpow. nia.
Qed.

(** Claim C3, as the spec words it, fails for the two middle nibbles: the
    code masks them and does not shift. For the word 0x1234 the code has
    X = 0x200 and Y = 0x30, neither within 0..15, where the spec has
    x = 2 and y = 3. *)
Lemma decode_x_y_are_not_shifted :
  X (decode 0x1234) = 0x200 /\
  X (decode 0x1234) <> Z.shiftr (Z.land 0x1234 0x0F00) 8 /\
  Y (decode 0x1234) = 0x30 /\
  Y (decode 0x1234) <> Z.shiftr (Z.land 0x1234 0x00F0) 4 /\
  ~ (0 <= X (decode 0x1234) <= 15) /\
  ~ (0 <= Y (decode 0x1234) <= 15).
Proof. vm_compute. repeat split; (discriminate || intros [? ?]; congruence). Qed.

(** Claim C3, amended: for every instruction word the decode step computes
    op = word & 0xF000, N = word & 0x000F, NN = word & 0x00FF and
    NNN = word & 0x0FFF, and keeps the middle nibbles in place:
    X = word & 0x0F00 is 256 times the second nibble and
    Y = word & 0x00F0 is 16 times the third; the values in 0..15 are
    X >> 8 and Y >> 4. *)
Theorem decode_fields word :
  op (decode word) = Z.land word 0xF000 /\
  X (decode word) = Z.land word 0x0F00 /\
  Y (decode word) = Z.land word 0x00F0 /\
  N (decode word) = Z.land word 0x000F /\
  NN (decode word) = Z.land word 0x00FF /\
  NNN (decode word) = Z.land word 0x0FFF /\
  X (decode word) = 256 * ((word / 256) mod 16) /\
  Y (decode word) = 16 * ((word / 16) mod 16) /\
  Z.shiftr (X (decode word)) 8 = (word / 256) mod 16 /\
  Z.shiftr (Y (decode word)) 4 = (word / 16) mod 16 /\
  0 <= Z.shiftr (X (decode word)) 8 <= 15 /\
  0 <= Z.shiftr (Y (decode word)) 4 <= 15.
Proof.
  pose proof (land_mask_u16 word 12 4) as Hop.
  pose proof (land_mask_u16 word 8 4) as HX.
  pose proof (land_mask_u16 word 4 4) as HY.
  pose proof (land_mask_u16 word 0 4) as HN.
  pose proof (land_mask_u16 word 0 8) as HNN.
  pose proof (land_mask_u16 word 0 12) as HNNN.
  pose proof (land_field word 12 4) as Fop.
  pose proof (land_field word 8 4) as FX.
  pose proof (land_field word 4 4) as FY.
  pose proof (land_field word 0 4) as FN.
  pose proof (land_field word 0 8) as FNN.
  pose proof (land_field word 0 12) as FNNN.
  change (Z.shiftl (Z.ones 4) 12) with 0xF000 in *.
  change (Z.shiftl (Z.ones 4) 8) with 0x0F00 in *.
  change (Z.shiftl (Z.ones 4) 4) with 0x00F0 in *.
  change (Z.shiftl (Z.ones 4) 0) with 0x000F in *.
  change (Z.shiftl (Z.ones 8) 0) with 0x00FF in *.
  change (Z.shiftl (Z.ones 12) 0) with 0x0FFF in *.
  change (2 ^ 12) with 4096 in *. change (2 ^ 8) with 256 in *.
  change (2 ^ 4) with 16 in *. change (2 ^ 0) with 1 in *.
  unfold decode. simpl.
  rewrite Hop, HX, HY, HN, HNN, HNNN by lia.
  rewrite Fop, FX, FY, FN, FNN, FNNN by lia.
  rewrite !Z.shiftr_div_pow2 by lia.
  change (2 ^ 8) with 256. change (2 ^ 4) with 16.
  rewrite !(Z.mul_comm _ (_ mod 16)), !Z.div_mul by lia.
  pose proof (Z.mod_pos_bound (word / 256) 16).
  pose proof (Z.mod_pos_bound (word / 16) 16).
  repeat split; lia.
Qed.

(** *** Fetch, advance, execute *)

(** Neither branch of the [switch] does anything. *)
Lemma execute_id word s : execute word s = s.
Proof.
  unfold execute.
  repeat match goal with
         | |- context [match ?x with _ => _ end] => destruct x
         end; reflexivity.
Qed.

Lemma fetch_in_bounds s :
  0 <= pc s -> pc s + 1 < Z.of_nat (length (mem s)) ->
  exists hi lo,
    load (mem s) (pc s) = Some hi /\
    load (mem s) (pc s + 1) = Some lo /\
    fetch s = Some (256 * byte_val hi + byte_val lo).
Proof.
  intros Hlo Hhi.
  destruct (load_in_bounds (mem s) (pc s)) as [hi Hhi_eq]; [lia |].
  destruct (load_in_bounds (mem s) (pc s + 1)) as [lo Hlo_eq]; [lia |].
  exists hi, lo. repeat split; [done..|].
  unfold fetch. rewrite Hhi_eq, Hlo_eq. simpl.
  pose proof (byte_val_range hi). pose proof (byte_val_range lo).
  rewrite lor_shiftl_8 by lia. f_equal. apply u16_small. lia.
Qed.

Lemma fetch_out_of_bounds s :
  Z.of_nat (length (mem s)) <= pc s + 1 -> fetch s = None.
Proof.
  intros Hpc. unfold fetch.
  destruct (load (mem s) (pc s)); simpl; [|done].
  by rewrite load_out_of_bounds.
Qed.

(** A pass leaves the locals as they were, except for [pc]. *)
Lemma body_Some s p :
  body s = Some p ->
  fetch s = Some (instr p) /\
  fields p = decode (instr p) /\
  after p = set_pc (u16 (pc s + 2)) s.
Proof.
  unfold body. destruct (fetch s) as [word|]; [|done]. simpl.
  intros [= <-]. simpl. by rewrite execute_id.
Qed.

Lemma step_Some s s' :
  step s = Some s' -> s' = set_pc (u16 (pc s + 2)) s.
Proof.
  unfold step. destruct (body s) as [p|] eqn:Hbody; [|done]. simpl.
  intros [= <-]. by apply body_Some.
Qed.

(** Whatever the number of passes, only [pc] can have changed. *)
Lemma loop_Some fuel : forall s s',
  loop fuel s = Some s' -> s' = set_pc (pc s') s.
Proof.
  induction fuel as [|fuel IH]; intros s s'; simpl.
  - intros [= <-]. by destruct s.
  - case_decide.
    + intros [= <-]. by destruct s.
    + destruct (step s) as [s1|] eqn:Hstep; [|done]. simpl.
      intros Hloop. apply step_Some in Hstep. apply IH in Hloop.
      rewrite Hloop, Hstep. reflexivity.
Qed.

(** Claim C1: in every pass of the loop whose fetch is inside [mem], the
    instruction word is the big-endian combination of [mem[pc]] (high byte)
    and [mem[pc + 1]], and it is the locals with [pc] already advanced by 2
    that are handed to the execute step, whose result is what the next pass
    starts from. *)
Theorem fetch_big_endian_then_advance s :
  length (mem s) = 4096%nat -> 0 <= pc s -> pc s + 1 < 4096 ->
  exists hi lo,
    load (mem s) (pc s) = Some hi /\
    load (mem s) (pc s + 1) = Some lo /\
    let word := 256 * byte_val hi + byte_val lo in
    body s =
      Some (mk_pass word (decode word) (execute word (set_pc (pc s + 2) s))) /\
    pc (set_pc (pc s + 2) s) = pc s + 2 /\
    forall fuel, interpret s <> 0 ->
      loop (S fuel) s = loop fuel (execute word (set_pc (pc s + 2) s)).
Proof.
  intros Hlen Hlo Hhi.
  destruct (fetch_in_bounds s) as (hi & lo & Hhi_eq & Hlo_eq & Hfetch);
    [lia.. |].
  exists hi, lo. split; [done |]. split; [done |].
  assert (body s =
            Some (mk_pass (256 * byte_val hi + byte_val lo)
                    (decode (256 * byte_val hi + byte_val lo))
                    (execute (256 * byte_val hi + byte_val lo)
                       (set_pc (pc s + 2) s)))) as Hbody.
  { unfold body. rewrite Hfetch. simpl. by rewrite u16_small by lia. }
  split; [done |]. split; [done |].
  intros fuel Hrun. simpl. rewrite decide_False by done.
  unfold step. by rewrite Hbody.
Qed.

Lemma fetch_big_endian_then_advance_witness :
  length (mem booted) = 4096%nat /\ 0 <= pc booted /\ pc booted + 1 < 4096 /\
  body booted = Some (mk_pass 0 (decode 0) (execute 0 (set_pc 514 booted))).
Proof.
  assert (length (mem booted) = 4096%nat) as Hlen by (vm_compute; reflexivity).
  assert (0 <= pc booted) as Hlo by (vm_compute; discriminate).
  assert (pc booted + 1 < 4096) as Hhi by (vm_compute; reflexivity).
  repeat (split; [assumption |]).
  destruct (fetch_big_endian_then_advance booted Hlen Hlo Hhi)
    as (hi & lo & Hhi_eq & Hlo_eq & Hbody & _).
  vm_compute in Hhi_eq, Hlo_eq.
  injection Hhi_eq as <-. injection Hlo_eq as <-.
  exact Hbody.
Defined.

(** *** The font region *)

Lemma add_fonts_to_zeroed_mem :
  add_fonts_to_mem (replicate 4096 x00) = Some font_image.
Proof. vm_compute. reflexivity. Qed.

Lemma init_booted : init = Some booted.
Proof. vm_compute. reflexivity. Qed.

(** Each glyph byte sits where the copy loop put it. *)
Lemma font_image_glyph (ii jj : nat) row b :
  fontData !! ii = Some row -> row !! jj = Some b ->
  load font_image (80 + Z.of_nat ii * 5 + Z.of_nat jj) = Some b.
Proof.
  intros Hrow Hb.
  assert (ii < 16)%nat as Hii by (apply lookup_lt_Some in Hrow; exact Hrow).
  do 16 (destruct ii as [|ii]; [
    injection Hrow as <-;
    assert (jj < 5)%nat as Hjj by (apply lookup_lt_Some in Hb; exact Hb);
    do 5 (destruct jj as [|jj]; [injection Hb as <-; reflexivity |]); lia |]).
  lia.
Qed.

(** From the loop's entry state the loop can make 1792 passes, after which
    [pc] is at the end of [mem] and the next fetch is outside it. *)
Lemma loop_runs_off_mem :
  loop 1792 booted = Some (set_pc 4096 booted) /\
  loop 1793 booted = None.
Proof. split; vm_compute; reflexivity. Qed.

(** Claim C8: the font table is copied to offsets 80..159 of the zeroed
    memory by the one call of [add_fonts_to_mem] that initialisation makes,
    and from then on the eighty glyph bytes keep their values: no pass of
    the loop writes to [mem], and the store [mem[80] = 0xF0] after the loop
    puts back the byte that is already there. *)
Theorem font_bytes_copied_once_then_unchanged :
  init = Some booted /\
  glyphs (mem booted) = concat fontData /\
  forall fuel s, loop fuel booted = Some s ->
    mem s = mem booted /\
    glyphs (mem s) = concat fontData /\
    exists s', after_loop s = Some s' /\
               mem s' = mem booted /\
               glyphs (mem s') = concat fontData.
Proof.
  assert (glyphs (mem booted) = concat fontData) as Hglyphs
    by (vm_compute; reflexivity).
  split; [exact init_booted |]. split; [exact Hglyphs |].
  intros fuel s Hloop. apply loop_Some in Hloop.
  assert (mem s = mem booted) as Hmem by (rewrite Hloop; reflexivity).
  split; [exact Hmem |]. split; [by rewrite Hmem |].
  unfold after_loop. rewrite Hmem.
  rewrite (store_same (mem booted) 80 xf0) by (vm_compute; reflexivity).
  simpl. eexists. split; [reflexivity |]. simpl. by split.
Qed.

Lemma font_bytes_copied_once_then_unchanged_witness :
  loop 3 booted = Some (set_pc 518 booted) /\
  glyphs (mem (set_pc 518 booted)) = concat fontData.
Proof.
  assert (loop 3 booted = Some (set_pc 518 booted)) as Hloop
    by (vm_compute; reflexivity).
  split; [exact Hloop |].
  exact (proj1 (proj2 (proj2 (proj2 font_bytes_copied_once_then_unchanged)
                         3%nat (set_pc 518 booted) Hloop))).
Defined.

(** *** Opcodes *)

(** Claim C4, as the spec words it, fails: after the draw word 0xD015 has
    been fetched and executed twice, the locals are the initial ones with
    [pc] moved on by 4. Nothing was drawn, and no flag was set: both timers
    and the index register hold what they held, and there is no register
    file among the locals. *)
Lemma draw_twice_sets_no_flag :
  instr <$> body draw_twice_state = Some 0xD015 /\
  instr <$> (step draw_twice_state ≫= body) = Some 0xD015 /\
  step draw_twice_state ≫= step = Some (set_pc 516 draw_twice_state).
Proof. repeat split; vm_compute; reflexivity. Qed.

Lemma fetch_Some_bounds s word :
  fetch s = Some word ->
  0 <= pc s /\ pc s + 1 < Z.of_nat (length (mem s)).
Proof.
  unfold fetch.
  destruct (load (mem s) (pc s)) as [hi|] eqn:Hhi; [|done]. simpl.
  destruct (load (mem s) (pc s + 1)) as [lo|] eqn:Hlo; [|done].
  intros _. apply load_Some_lt in Hhi, Hlo. lia.
Qed.

(** Claim C4, amended: running a draw word (top nibble 0xD) twice in
    succession leaves the display buffer as it was before the first of the
    two, so an all-zero buffer stays all-zero. The [switch] has no draw
    case: each of the two passes is defined and advances [pc] by 2, and the
    locals after them are the ones before with [pc] four further on;
    nothing is drawn and no flag is set. *)
Theorem draw_word_twice_changes_only_pc s word :
  length (mem s) = 4096%nat -> 0 <= pc s ->
  fetch s = Some word ->
  fetch (set_pc (pc s + 2) s) = Some word ->
  op (decode word) = 0xD000 ->
  exists p1 p2,
    body s = Some p1 /\ instr p1 = word /\
    body (after p1) = Some p2 /\ instr p2 = word /\
    after p1 = set_pc (pc s + 2) s /\
    after p2 = set_pc (pc s + 4) s /\
    pc (after p1) = pc s + 2 /\ pc (after p2) = pc s + 4 /\
    display (after p1) = display s /\ display (after p2) = display s.
Proof.
  intros Hlen Hpc Hfirst Hsecond _.
  pose proof (fetch_Some_bounds _ _ Hfirst) as [_ Hb1].
  pose proof (fetch_Some_bounds _ _ Hsecond) as [_ Hb2].
  simpl in Hb2. rewrite Hlen in Hb1, Hb2.
  assert (body s = Some (mk_pass word (decode word) (set_pc (pc s + 2) s)))
    as Hbody1.
  { unfold body. rewrite Hfirst. simpl.
    by rewrite execute_id, u16_small by lia. }
  assert (body (set_pc (pc s + 2) s) =
            Some (mk_pass word (decode word) (set_pc (pc s + 4) s)))
    as Hbody2.
  { unfold body. rewrite Hsecond. simpl.
    rewrite execute_id, u16_small by lia.
    unfold set_pc. simpl. do 3 f_equal. lia. }
  exists (mk_pass word (decode word) (set_pc (pc s + 2) s)),
         (mk_pass word (decode word) (set_pc (pc s + 4) s)).
  simpl. repeat split; assumption.
Qed.

Lemma draw_word_twice_changes_only_pc_witness :
  length (mem draw_twice_state) = 4096%nat /\
  0 <= pc draw_twice_state /\
  fetch draw_twice_state = Some 0xD015 /\
  fetch (set_pc (pc draw_twice_state + 2) draw_twice_state) = Some 0xD015 /\
  op (decode 0xD015) = 0xD000 /\
  exists p1 p2,
    body draw_twice_state = Some p1 /\ instr p1 = 0xD015 /\
    body (after p1) = Some p2 /\ instr p2 = 0xD015 /\
    after p1 = set_pc (pc draw_twice_state + 2) draw_twice_state /\
    after p2 = set_pc (pc draw_twice_state + 4) draw_twice_state /\
    pc (after p1) = pc draw_twice_state + 2 /\
    pc (after p2) = pc draw_twice_state + 4 /\
    display (after p1) = display draw_twice_state /\
    display (after p2) = display draw_twice_state.
Proof.
  assert (length (mem draw_twice_state) = 4096%nat) as Hlen
    by (vm_compute; reflexivity).
  assert (0 <= pc draw_twice_state) as Hpc by (vm_compute; discriminate).
  assert (fetch draw_twice_state = Some 0xD015) as Hfirst
    by (vm_compute; reflexivity).
  assert (fetch (set_pc (pc draw_twice_state + 2) draw_twice_state)
            = Some 0xD015) as Hsecond by (vm_compute; reflexivity).
  assert (op (decode 0xD015) = 0xD000) as Hop by (vm_compute; reflexivity).
  repeat (split; [assumption |]).
  exact (draw_word_twice_changes_only_pc draw_twice_state 0xD015
           Hlen Hpc Hfirst Hsecond Hop).
Defined.

(** Claim C7 (0x00E0 zeroes the display buffer). The case for 0x00E0 holds
    a comment and a [break]: with the top-left pixel lit, the pass that
    fetches 0x00E0 leaves the display as it found it, the pixel still 1. *)
Theorem clear_screen_leaves_lit_pixel :
  exists p, body lit_state = Some p /\
            instr p = 0x00E0 /\
            display (after p) = display lit_state /\
            (load (display (after p)) 0 ≫= fun row => load row 0) = Some x01.
Proof.
  eexists. split; [vm_compute; reflexivity |].
  repeat split; vm_compute; reflexivity.
Qed.

(** Claim C9, as the spec words it, fails: the words 0x0000 (what the loop
    finds at 0x200 when it is entered) and 0xFFFF match no case; the pass
    that fetches one yields the word, its fields and the locals with [pc]
    moved on, and the loop carries on to the next word. *)
Lemma unknown_word_is_silently_ignored :
  body booted = Some (mk_pass 0x0000 (decode 0x0000) (set_pc 514 booted)) /\
  loop 2 booted = Some (set_pc 516 booted) /\
  body (booted_with [xff; xff]) =
    Some (mk_pass 0xFFFF (decode 0xFFFF) (set_pc 514 (booted_with [xff; xff]))) /\
  loop 2 (booted_with [xff; xff]) = Some (set_pc 516 (booted_with [xff; xff])).
Proof. repeat split; vm_compute; reflexivity. Qed.

(** Claim C9, amended: a fetched word that matches no case of the [switch]
    is skipped without a report. The pass is defined whenever the fetch is
    inside [mem] (nothing aborts), it leaves the locals as they were with
    [pc] advanced by 2, and [interpret] stays as it was, so the loop goes
    on. *)
Theorem unmatched_word_is_skipped s :
  length (mem s) = 4096%nat -> 0 <= pc s -> pc s + 1 < 4096 ->
  exists p, body s = Some p /\
    (instr p <> 0x00E0 ->
     after p = set_pc (pc s + 2) s /\
     interpret (after p) = interpret s /\
     forall fuel, interpret s <> 0 ->
       loop (S fuel) s = loop fuel (set_pc (pc s + 2) s)).
Proof.
  intros Hlen Hlo Hhi.
  destruct (fetch_in_bounds s) as (hi & lo & _ & _ & Hfetch); [lia.. |].
  eexists. split.
  { unfold body. rewrite Hfetch. simpl. reflexivity. }
  simpl. intros _. rewrite execute_id, u16_small by lia.
  repeat split.
  intros fuel Hrun. rewrite decide_False by done.
  unfold step, body. rewrite Hfetch. simpl.
  by rewrite execute_id, u16_small by lia.
Qed.

Lemma unmatched_word_is_skipped_witness :
  length (mem (booted_with [xff; xff])) = 4096%nat /\
  0 <= pc (booted_with [xff; xff]) /\
  pc (booted_with [xff; xff]) + 1 < 4096 /\
  exists p, body (booted_with [xff; xff]) = Some p /\
            instr p = 0xFFFF /\
            instr p <> 0x00E0 /\
            after p = set_pc 514 (booted_with [xff; xff]).
Proof.
  assert (length (mem (booted_with [xff; xff])) = 4096%nat) as Hlen
    by (vm_compute; reflexivity).
  assert (0 <= pc (booted_with [xff; xff])) as Hlo
    by (vm_compute; discriminate).
  assert (pc (booted_with [xff; xff]) + 1 < 4096) as Hhi
    by (vm_compute; reflexivity).
  repeat (split; [assumption |]).
  destruct (unmatched_word_is_skipped (booted_with [xff; xff]) Hlen Hlo Hhi)
    as (p & Hbody & Hskip).
  exists p.
  assert (instr p = 0xFFFF) as Hinstr.
  { apply body_Some in Hbody as (Hfetch & _).
    vm_compute in Hfetch. by injection Hfetch. }
  assert (instr p <> 0x00E0) as Hne by (rewrite Hinstr; discriminate).
  repeat (split; [assumption |]).
  apply (Hskip Hne).
Defined.

End Loop.

(** * Further properties *)

(** ** Consecutive stores *)

Section WriteList.
Context {A : Type}.
Implicit Types (a : list A) (vs : list A) (i : Z).

Lemma write_list_in_bounds vs : forall a i,
  0 <= i -> i + Z.of_nat (length vs) <= Z.of_nat (length a) ->
  write_list a i vs = Some (overlay (Z.to_nat i) vs a).
Proof.
  unfold overlay.
  induction vs as [|v vs IH]; intros a i Hi Hfit; simpl in *.
  - by rewrite Nat.add_0_r, take_drop.
  - rewrite store_in_bounds by lia. simpl.
    rewrite IH by (rewrite ?length_insert; lia). f_equal.
    replace (Z.to_nat (i + 1)) with (S (Z.to_nat i)) by lia.
    erewrite take_S_r by (apply list_lookup_insert_eq; lia).
    rewrite take_insert_ge by lia.
    rewrite drop_insert_lt by lia.
    rewrite <- app_assoc. simpl. do 4 f_equal. lia.
Qed.

Lemma write_list_out_of_bounds vs : forall a i,
  0 <= i <= Z.of_nat (length a) ->
  Z.of_nat (length a) < i + Z.of_nat (length vs) ->
  write_list a i vs = None.
Proof.
  induction vs as [|v vs IH]; intros a i Hi Hout; simpl in *; [lia |].
  destruct (store a i v) as [a'|] eqn:Hst; [|done]. simpl.
  assert (i < Z.of_nat (length a)) as Hlt.
  { unfold store in Hst. case_decide; [lia | done]. }
  apply store_length in Hst as Hlen.
  apply IH; rewrite Hlen; lia.
Qed.

Lemma write_list_app vs ws : forall a i,
  write_list a i (vs ++ ws) =
    write_list a i vs ≫= fun a' => write_list a' (i + Z.of_nat (length vs)) ws.
Proof.
  induction vs as [|v vs IH]; intros a i; simpl.
  - by rewrite Z.add_0_r.
  - replace (i + Z.of_nat (S (length vs)))
      with (i + 1 + Z.of_nat (length vs)) by lia.
    destruct (store a i v) as [a'|]; [|done]. simpl.
    by rewrite IH.
Qed.

Lemma for_loop_ext {St : Type} (f g : Z -> St -> option St) count :
  forall lo s,
  (forall j t, lo <= j < lo + Z.of_nat count -> f j t = g j t) ->
  for_loop lo count f s = for_loop lo count g s.
Proof.
  induction count as [|count IH]; intros lo s Hext; simpl; [done |].
  rewrite Hext by lia. destruct (g lo s) as [s'|]; [|done]. simpl.
  apply IH. intros j t Hj. apply Hext. lia.
Qed.

(** A loop that copies [row[lo .. lo+count-1]] to [a[base+lo ..]]. *)
Lemma for_loop_copy_row (row : list A) base count : forall lo a,
  0 <= lo -> (Z.to_nat lo + count <= length row)%nat ->
  for_loop lo count (fun jj a => b ← load row jj; store a (base + jj) b) a =
    write_list a (base + lo) (take count (drop (Z.to_nat lo) row)).
Proof.
  induction count as [|count IH]; intros lo a Hlo Hfit; cbn [for_loop take].
  { done. }
  destruct (lookup_lt_is_Some_2 row (Z.to_nat lo)) as [b Hb]; [lia |].
  rewrite load_lookup, Hb by done.
  erewrite drop_S by done. cbn [take write_list]. simpl.
  destruct (store a (base + lo) b) as [a'|]; [|done]. simpl.
  rewrite IH by lia.
  replace (Z.to_nat (lo + 1)) with (S (Z.to_nat lo)) by lia.
  by rewrite Z.add_assoc.
Qed.

(** Two nested loops that copy a table of rows of width [w], row after
    row. *)
Lemma for_loop_copy_table (table : list (list A)) (w : nat) base count :
  Forall (fun row => length row = w) table ->
  forall lo a,
  0 <= lo -> (Z.to_nat lo + count <= length table)%nat ->
  for_loop lo count (fun ii a =>
    for_loop 0 w (fun jj a =>
      row ← load table ii;
      b ← load row jj;
      store a (base + ii * Z.of_nat w + jj) b) a) a =
    write_list a (base + lo * Z.of_nat w)
      (concat (take count (drop (Z.to_nat lo) table))).
Proof.
  intros Hw.
  induction count as [|count IH]; intros lo a Hlo Hfit; cbn [for_loop take].
  { done. }
  destruct (lookup_lt_is_Some_2 table (Z.to_nat lo)) as [row Hrow]; [lia |].
  assert (length row = w) as Hlen.
  { rewrite Forall_lookup in Hw. by apply (Hw _ _ Hrow). }
  erewrite (for_loop_ext _
    (fun jj a => b ← load row jj; store a (base + lo * Z.of_nat w + jj) b)).
  2:{ intros j t _. by rewrite (load_lookup table), Hrow by done. }
  rewrite for_loop_copy_row by (simpl; lia).
  change (Z.to_nat 0) with 0%nat. rewrite drop_0, Z.add_0_r.
  rewrite take_ge by lia.
  erewrite drop_S by done. simpl.
  rewrite write_list_app.
  destruct (write_list a (base + lo * Z.of_nat w) row) as [a'|]; [|done].
  simpl. rewrite IH by lia.
  replace (Z.to_nat (lo + 1)) with (S (Z.to_nat lo)) by lia.
  f_equal. lia.
Qed.

End WriteList.

(** ** The font, on any memory *)

Lemma add_fonts_to_mem_write_list mem :
  add_fonts_to_mem mem = write_list mem 80 (concat fontData).
Proof.
  unfold add_fonts_to_mem.
  assert (Forall (fun row : list byte => length row = 5%nat) fontData) as Hw
    by (repeat constructor).
  exact (for_loop_copy_table fontData 5 80 16 Hw 0 mem
           (Z.le_refl 0) (Nat.le_refl 16)).
Qed.

Lemma fontData_length : length (concat fontData) = 80%nat.
Proof. reflexivity. Qed.

Lemma add_fonts_in_bounds (mem : list byte) :
  (160 <= length mem)%nat ->
  add_fonts_to_mem mem =
    Some (take 80 mem ++ concat fontData ++ drop 160 mem).
Proof.
  intros Hlen.
  rewrite add_fonts_to_mem_write_list.
  rewrite write_list_in_bounds by (rewrite ?fontData_length; lia).
  reflexivity.
Qed.

Lemma add_fonts_out_of_bounds (mem : list byte) :
  (length mem < 160)%nat -> add_fonts_to_mem mem = None.
Proof.
  intros Hlen.
  rewrite add_fonts_to_mem_write_list.
  destruct (decide (80 <= length mem)%nat) as [Hge | Hlt].
  - apply write_list_out_of_bounds; rewrite ?fontData_length; lia.
  - change (concat fontData) with (xf0 :: tail (concat fontData)).
    cbn [write_list]. rewrite store_out_of_bounds by lia. reflexivity.
Qed.

(** Property X1. On any buffer of at least 160 bytes [add_fonts_to_mem] is defined and
    replaces bytes 80..159 by the eighty font bytes, glyph after glyph; the
    bytes before and after keep their values and the length is the same. *)
Theorem add_fonts_to_mem_any_memory (mem : list byte) :
  (160 <= length mem)%nat ->
  add_fonts_to_mem mem =
    Some (take 80 mem ++ concat fontData ++ drop 160 mem).
Proof. apply add_fonts_in_bounds. Qed.

Lemma add_fonts_to_mem_any_memory_witness :
  (160 <= length (replicate 162 xff))%nat /\
  add_fonts_to_mem (replicate 162 xff) =
    Some (replicate 80 xff ++ concat fontData ++ [xff; xff]).
Proof.
  assert (160 <= length (replicate 162 xff))%nat as Hlen
    by (rewrite length_replicate; lia).
  split; [exact Hlen |].
  exact (add_fonts_to_mem_any_memory (replicate 162 xff) Hlen).
Defined.

(** Property X2. On a buffer shorter than 160 bytes the copy loop writes past the end:
    [add_fonts_to_mem] has no defined result. *)
Theorem add_fonts_to_mem_short_buffer (mem : list byte) :
  (length mem < 160)%nat -> add_fonts_to_mem mem = None.
Proof. apply add_fonts_out_of_bounds. Qed.

Lemma add_fonts_to_mem_short_buffer_witness :
  (length (replicate 159 x00) < 160)%nat /\
  add_fonts_to_mem (replicate 159 x00) = None.
Proof.
  assert (length (replicate 159 x00) < 160)%nat as Hlen
    by (rewrite length_replicate; lia).
  split; [exact Hlen |].
  exact (add_fonts_to_mem_short_buffer (replicate 159 x00) Hlen).
Defined.

(** Property X3. Copying the font a second time changes nothing. *)
Theorem add_fonts_to_mem_idempotent (mem mem' : list byte) :
  add_fonts_to_mem mem = Some mem' -> add_fonts_to_mem mem' = Some mem'.
Proof.
  intros Hfirst.
  destruct (decide (length mem < 160)%nat) as [Hshort | Hlong].
  { by rewrite add_fonts_out_of_bounds in Hfirst. }
  rewrite add_fonts_in_bounds in Hfirst by lia.
  assert (mem' = take 80 mem ++ concat fontData ++ drop 160 mem) as ->
    by congruence.
  clear Hfirst.
  assert (length (take 80 mem) = 80%nat) as Htake
    by (rewrite length_take; lia).
  rewrite add_fonts_in_bounds.
  2:{ rewrite !length_app, Htake, fontData_length, length_drop. lia. }
  f_equal. f_equal.
  - rewrite take_app_length'; done.
  - f_equal. rewrite app_assoc.
    rewrite drop_app_length'; [done |].
    rewrite length_app, Htake, fontData_length. reflexivity.
Qed.

Lemma add_fonts_to_mem_idempotent_witness :
  add_fonts_to_mem (replicate 4096 x00) = Some font_image /\
  add_fonts_to_mem font_image = Some font_image.
Proof.
  assert (add_fonts_to_mem (replicate 4096 x00) = Some font_image) as Hfirst
    by (vm_compute; reflexivity).
  split; [exact Hfirst |].
  exact (add_fonts_to_mem_idempotent _ _ Hfirst).
Defined.

(** ** The keypad, read backwards *)

(** Property X11. A key code below 16 determines the character: two inputs that
    [char_to_val] maps to the same supported code are the same input. *)
Theorem char_to_val_injective_on_keys (a b : Z) :
  (char_to_val a).1 = (char_to_val b).1 -> (char_to_val a).1 < 16 -> a = b.
Proof.
  unfold char_to_val.
  repeat case_decide; simpl; intros Heq Hlt; solve [congruence | lia].
Qed.

Lemma char_to_val_injective_on_keys_witness :
  (char_to_val 113).1 = (char_to_val (chr "q")).1 /\
  (char_to_val 113).1 < 16 /\ 113 = chr "q".
Proof.
  assert ((char_to_val 113).1 = (char_to_val (chr "q")).1) as Heq
    by reflexivity.
  assert ((char_to_val 113).1 < 16) as Hlt by reflexivity.
  exact (conj Heq (conj Hlt (char_to_val_injective_on_keys _ _ Heq Hlt))).
Defined.

(** ** Decoding, put back together *)

(** Property X12. The masks cut a 16-bit word into its four nibbles, each left in place:
    the fields add up to the word again, NNN is the sum of the three low
    ones and NN of the two lowest. *)
Theorem decode_fields_add_up word :
  0 <= word < 65536 ->
  op (decode word) + X (decode word) + Y (decode word) + N (decode word)
    = word /\
  NNN (decode word) = X (decode word) + Y (decode word) + N (decode word) /\
  NN (decode word) = Y (decode word) + N (decode word).
Proof.
  intros Hword.
  pose proof (land_mask_u16 word 12 4) as Hop.
  pose proof (land_mask_u16 word 8 4) as HX.
  pose proof (land_mask_u16 word 4 4) as HY.
  pose proof (land_mask_u16 word 0 4) as HN.
  pose proof (land_mask_u16 word 0 8) as HNN.
  pose proof (land_mask_u16 word 0 12) as HNNN.
  change (Z.shiftl (Z.ones 4) 12) with 0xF000 in *.
  change (Z.shiftl (Z.ones 4) 8) with 0x0F00 in *.
  change (Z.shiftl (Z.ones 4) 4) with 0x00F0 in *.
  change (Z.shiftl (Z.ones 4) 0) with 0x000F in *.
  change (Z.shiftl (Z.ones 8) 0) with 0x00FF in *.
  change (Z.shiftl (Z.ones 12) 0) with 0x0FFF in *.
  change (2 ^ 12) with 4096 in *. change (2 ^ 8) with 256 in *.
  change (2 ^ 4) with 16 in *. change (2 ^ 0) with 1 in *.
  unfold decode. simpl.
  rewrite Hop, HX, HY, HN, HNN, HNNN by lia.
  clear Hop HX HY HN HNN HNNN.
  rewrite !Z.div_1_r.
  repeat split; Z.to_euclidean_division_equations; lia.
Qed.

Lemma decode_fields_add_up_witness :
  0 <= 0xD015 < 65536 /\
  op (decode 0xD015) + X (decode 0xD015) + Y (decode 0xD015)
    + N (decode 0xD015) = 0xD015.
Proof.
  assert (0 <= 0xD015 < 65536) as Hword by lia.
  split; [exact Hword |].
  exact (proj1 (decode_fields_add_up 0xD015 Hword)).
Defined.

(** Property X13. Fetch and decode together: NN is the byte at [pc + 1], and the byte at
    [pc] is [op] and [X] taken together, shifted down by eight. *)
Theorem fetched_bytes_in_fields s p hi lo :
  load (mem s) (pc s) = Some hi -> load (mem s) (pc s + 1) = Some lo ->
  body s = Some p ->
  NN (fields p) = byte_val lo /\
  op (fields p) + X (fields p) = 256 * byte_val hi.
Proof.
  intros Hhi Hlo Hbody.
  assert (instr p = 256 * byte_val hi + byte_val lo) as Hword.
  { apply body_Some in Hbody as (Hfetch & _).
    unfold fetch in Hfetch. rewrite Hhi, Hlo in Hfetch. simpl in Hfetch.
    pose proof (byte_val_range hi). pose proof (byte_val_range lo).
    rewrite lor_shiftl_8, u16_small in Hfetch by lia. congruence. }
  apply body_Some in Hbody as (_ & -> & _). rewrite Hword.
  set (word := 256 * byte_val hi + byte_val lo).
  pose proof (byte_val_range hi). pose proof (byte_val_range lo).
  pose proof (land_mask_u16 word 12 4) as Hop.
  pose proof (land_mask_u16 word 8 4) as HX.
  pose proof (land_mask_u16 word 0 8) as HNN.
  change (Z.shiftl (Z.ones 4) 12) with 0xF000 in *.
  change (Z.shiftl (Z.ones 4) 8) with 0x0F00 in *.
  change (Z.shiftl (Z.ones 8) 0) with 0x00FF in *.
  change (2 ^ 12) with 4096 in *. change (2 ^ 8) with 256 in *.
  change (2 ^ 4) with 16 in *. change (2 ^ 0) with 1 in *.
  unfold decode. simpl.
  rewrite Hop, HX, HNN by lia. clear Hop HX HNN.
  rewrite !Z.div_1_r. subst word.
  split; Z.to_euclidean_division_equations; lia.
Qed.

Lemma fetched_bytes_in_fields_witness :
  NN (fields draw_pass_1) = byte_val x15 /\
  op (fields draw_pass_1) + X (fields draw_pass_1) = 256 * byte_val xd0.
Proof.
  apply (fetched_bytes_in_fields draw_twice_state draw_pass_1 xd0 x15);
    vm_compute; reflexivity.
Defined.

(** ** The interpreter loop as a whole *)

Lemma step_in_bounds s :
  length (mem s) = 4096%nat -> 0 <= pc s -> pc s + 1 < 4096 ->
  step s = Some (set_pc (pc s + 2) s).
Proof.
  intros Hlen Hlo Hhi.
  destruct (fetch_in_bounds s) as (hi & lo & _ & _ & Hfetch); [lia.. |].
  unfold step, body. rewrite Hfetch. simpl.
  by rewrite execute_id, u16_small by lia.
Qed.

Lemma loop_in_bounds fuel : forall s,
  length (mem s) = 4096%nat -> interpret s <> 0 -> 0 <= pc s ->
  pc s + 2 * Z.of_nat fuel <= 4096 ->
  loop fuel s = Some (set_pc (pc s + 2 * Z.of_nat fuel) s).
Proof.
  induction fuel as [|fuel IH]; intros s Hlen Hrun Hlo Hhi; cbn [loop].
  - f_equal. destruct s. unfold set_pc. simpl. f_equal. lia.
  - rewrite decide_False by done.
    rewrite step_in_bounds by lia. simpl.
    rewrite IH by (simpl; lia || done).
    unfold set_pc. simpl. do 2 f_equal. lia.
Qed.

Lemma loop_out_of_bounds fuel : forall s,
  length (mem s) = 4096%nat -> interpret s <> 0 -> 0 <= pc s <= 4096 ->
  4096 < pc s + 2 * Z.of_nat fuel ->
  loop fuel s = None.
Proof.
  induction fuel as [|fuel IH]; intros s Hlen Hrun Hpc Hover; cbn [loop].
  - lia.
  - rewrite decide_False by done.
    destruct (decide (pc s + 1 < 4096)) as [Hin | Hout].
    + rewrite step_in_bounds by lia. simpl.
      apply IH; simpl; lia || done.
    + unfold step, body. rewrite fetch_out_of_bounds by lia. done.
Qed.

(** Property X14. Entered with [interpret] non-zero, the loop advances [pc] by 2 per pass
    for as long as the two bytes at [pc] are inside [mem]; a pass that would
    fetch beyond [mem[4095]] has no defined result. The loop has no other
    way of ending. *)
Theorem loop_passes_until_end_of_mem s fuel :
  length (mem s) = 4096%nat -> interpret s <> 0 -> 0 <= pc s <= 4096 ->
  (pc s + 2 * Z.of_nat fuel <= 4096 ->
   loop fuel s = Some (set_pc (pc s + 2 * Z.of_nat fuel) s)) /\
  (4096 < pc s + 2 * Z.of_nat fuel -> loop fuel s = None).
Proof.
  intros Hlen Hrun Hpc. split; intros Hfuel.
  - apply loop_in_bounds; lia || done.
  - by apply loop_out_of_bounds.
Qed.

Lemma loop_passes_until_end_of_mem_witness :
  length (mem booted) = 4096%nat /\ interpret booted <> 0 /\
  0 <= pc booted <= 4096 /\
  loop 1792 booted = Some (set_pc (512 + 2 * 1792) booted) /\
  loop 1793 booted = None.
Proof.
  assert (length (mem booted) = 4096%nat) as Hlen by (vm_compute; reflexivity).
  assert (interpret booted <> 0) as Hrun by (vm_compute; discriminate).
  assert (0 <= pc booted <= 4096) as Hpc by (vm_compute; split; discriminate).
  repeat (split; [assumption |]).
  split.
  - apply (loop_passes_until_end_of_mem booted 1792 Hlen Hrun Hpc).
    vm_compute. discriminate.
  - apply (loop_passes_until_end_of_mem booted 1793 Hlen Hrun Hpc).
    vm_compute. reflexivity.
Defined.

(** Property X15. However many passes the loop makes, from whatever locals, it changes
    nothing but [pc]: memory, display, stack, timers and index register are
    as before, and so is [interpret]. *)
Theorem loop_changes_only_pc fuel s s' :
  loop fuel s = Some s' ->
  mem s' = mem s /\ display s' = display s /\ stack s' = stack s /\
  delay_timer s' = delay_timer s /\ sound_timer s' = sound_timer s /\
  reg_index s' = reg_index s /\ interpret s' = interpret s.
Proof.
  intros Hloop. apply loop_Some in Hloop. rewrite Hloop.
  repeat split.
Qed.

Lemma loop_changes_only_pc_witness :
  loop 2 lit_state = Some (set_pc 516 lit_state) /\
  display (set_pc 516 lit_state) = display lit_state.
Proof.
  assert (loop 2 lit_state = Some (set_pc 516 lit_state)) as Hloop
    by (vm_compute; reflexivity).
  split; [exact Hloop |].
  exact (proj1 (proj2 (loop_changes_only_pc 2 _ _ Hloop))).
Defined.

(** ** The event loop *)

Section EventLoop.
Variable SDL_QUIT : Z.
Implicit Types (answers rest batch taken : list poll) (quit : bool).

(** The inner loop takes a batch of events and the [no_event] that ends
    it. *)
Lemma drain_Some quit answers quit' rest :
  drain SDL_QUIT quit answers = Some (quit', rest) ->
  exists batch,
    answers = batch ++ no_event :: rest /\
    (no_event ∉ batch) /\
    (quit' = true <-> quit = true \/ event SDL_QUIT ∈ batch).
Proof.
  revert quit. induction answers as [|[|type] answers IH]; intros quit; simpl.
  - done.
  - intros [= <- <-]. exists []. split; [done |].
    split; [apply not_elem_of_nil |]. rewrite elem_of_nil. tauto.
  - intros Hdrain. apply IH in Hdrain as (batch & -> & Hno & Hquit).
    exists (event type :: batch). split; [done |].
    split; [rewrite not_elem_of_cons; split; [discriminate | done] |].
    rewrite Hquit, elem_of_cons. case_decide as Htype.
    + subst type. tauto.
    + split; [tauto | intros [Hq | [Heq | Hin]]; [tauto | congruence | tauto]].
Qed.

Lemma drain_batch batch : forall quit rest,
  no_event ∉ batch ->
  exists quit',
    drain SDL_QUIT quit (batch ++ no_event :: rest) = Some (quit', rest) /\
    (quit' = true <-> quit = true \/ event SDL_QUIT ∈ batch).
Proof.
  induction batch as [|[|type] batch IH]; intros quit rest Hno; simpl.
  - exists quit. split; [done |]. rewrite elem_of_nil. tauto.
  - exfalso. apply Hno. rewrite elem_of_cons. by left.
  - apply not_elem_of_cons in Hno as [_ Hno].
    destruct (IH (if decide (type = SDL_QUIT) then true else quit) rest Hno)
      as (quit' & -> & Hquit).
    exists quit'. split; [done |].
    rewrite Hquit, elem_of_cons. case_decide as Htype.
    + subst type. tauto.
    + split; [tauto | intros [Hq | [Heq | Hin]]; [tauto | congruence | tauto]].
Qed.

(** Property X16. Without a quit event among the answers the window is never closed:
    the loop does not end, however long it polls. *)
Theorem event_loop_needs_quit fuel : forall answers,
  event SDL_QUIT ∉ answers ->
  event_loop SDL_QUIT fuel false answers = None.
Proof.
  induction fuel as [|fuel IH]; intros answers Hno; simpl; [done |].
  destruct (drain SDL_QUIT false answers) as [[quit' rest]|] eqn:Hdrain;
    [|done].
  simpl. apply drain_Some in Hdrain as (batch & -> & _ & Hquit).
  apply not_elem_of_app in Hno as [Hbatch Hrest].
  apply not_elem_of_cons in Hrest as [_ Hrest].
  destruct quit'.
  - destruct (proj1 Hquit eq_refl) as [? | Hin]; done.
  - by apply IH.
Qed.

(** Property X17. When the loop ends, what it has taken from the answers holds a quit
    event and ends with an empty queue; the answers behind are not looked
    at. *)
Theorem event_loop_ends_after_quit fuel : forall answers rest,
  event_loop SDL_QUIT fuel false answers = Some rest ->
  exists taken,
    answers = taken ++ no_event :: rest /\ event SDL_QUIT ∈ taken.
Proof.
  induction fuel as [|fuel IH]; intros answers rest; simpl; [done |].
  destruct (drain SDL_QUIT false answers) as [[quit' rest1]|] eqn:Hdrain;
    [|done].
  simpl. apply drain_Some in Hdrain as (batch & -> & _ & Hquit).
  destruct quit'.
  - destruct fuel as [|fuel]; simpl; [done |].
    intros [= <-]. exists batch. split; [done |].
    destruct (proj1 Hquit eq_refl) as [? | Hin]; done.
  - intros Hloop. apply IH in Hloop as (taken & -> & Hin).
    exists (batch ++ no_event :: taken). split.
    + by rewrite <- app_assoc.
    + rewrite elem_of_app, elem_of_cons. tauto.
Qed.

Lemma event_loop_batches (batches : list (list poll)) batch rest : forall fuel,
  Forall (fun b => (no_event ∉ b) /\ (event SDL_QUIT ∉ b)) batches ->
  no_event ∉ batch -> event SDL_QUIT ∈ batch ->
  (length batches + 2 <= fuel)%nat ->
  event_loop SDL_QUIT fuel false
    (concat ((fun b => b ++ [no_event]) <$> batches)
       ++ batch ++ no_event :: rest) = Some rest.
Proof.
  induction batches as [|b batches IH]; intros fuel Hcalm Hno Hquit Hfuel.
  - destruct fuel as [|[|fuel]]; [simpl in Hfuel; lia.. |].
    cbn [fmap list_fmap concat app event_loop].
    destruct (drain_batch batch false rest Hno) as (quit' & -> & Hq).
    assert (quit' = true) as -> by (apply Hq; by right).
    reflexivity.
  - destruct fuel as [|fuel]; [simpl in Hfuel; lia |].
    apply Forall_cons in Hcalm as [[Hb_no Hb_quit] Hcalm].
    cbn [fmap list_fmap concat event_loop].
    rewrite <- !app_assoc. cbn [app].
    destruct (drain_batch b false
                (concat ((fun b => b ++ [no_event]) <$> batches)
                   ++ batch ++ no_event :: rest) Hb_no) as (quit' & -> & Hq).
    assert (quit' = false) as ->.
    { destruct quit'; [|done]. destruct (proj1 Hq eq_refl); done. }
    cbn [mbind option_bind].
    apply IH; [done.. |]. simpl in Hfuel. lia.
Qed.

(** Property X18. Batches without a quit event keep the loop going; the first batch that
    holds one ends it, once the queue has been found empty, with the events
    queued behind the quit event taken and ignored. The loop is then over
    within the fuel that [poll_until_quit] gives it. *)
Theorem poll_until_quit_first_quit_batch
    (batches : list (list poll)) batch rest :
  Forall (fun b => (no_event ∉ b) /\ (event SDL_QUIT ∉ b)) batches ->
  no_event ∉ batch -> event SDL_QUIT ∈ batch ->
  poll_until_quit SDL_QUIT
    (concat ((fun b => b ++ [no_event]) <$> batches)
       ++ batch ++ no_event :: rest) = Some rest.
Proof.
  intros Hcalm Hno Hquit. unfold poll_until_quit.
  apply event_loop_batches; [done.. |].
  rewrite !length_app. cbn [length].
  assert (1 <= length batch)%nat.
  { destruct batch; [by apply elem_of_nil in Hquit | simpl; lia]. }
  assert (length batches <=
          length (concat ((fun b => b ++ [no_event]) <$> batches)))%nat.
  { clear. induction batches as [|b batches IH]; [simpl; lia |].
    rewrite fmap_cons. cbn [concat length].
    rewrite !length_app. cbn [length]. lia. }
  lia.
Qed.

(** More fuel does not change how the loop ends, so [poll_until_quit]
    finds the end of the loop whenever there is one. *)
Lemma event_loop_more_fuel fuel : forall quit answers rest fuel',
  event_loop SDL_QUIT fuel quit answers = Some rest ->
  (length answers < fuel')%nat ->
  event_loop SDL_QUIT fuel' quit answers = Some rest.
Proof.
  induction fuel as [|fuel IH]; intros quit answers rest fuel'; simpl;
    [done |].
  destruct fuel' as [|fuel']; [lia |]. simpl.
  destruct quit; [done |].
  destruct (drain SDL_QUIT false answers) as [[quit' rest1]|] eqn:Hdrain;
    [|done].
  simpl. apply drain_Some in Hdrain as (batch & -> & _ & _).
  intros Hloop Hfuel. apply (IH _ _ _ _ Hloop).
  rewrite length_app in Hfuel. simpl in Hfuel. lia.
Qed.

Lemma poll_until_quit_None answers :
  poll_until_quit SDL_QUIT answers = None ->
  forall fuel, event_loop SDL_QUIT fuel false answers = None.
Proof.
  intros Hnone fuel.
  destruct (event_loop SDL_QUIT fuel false answers) as [rest|] eqn:Hloop;
    [|done].
  apply (event_loop_more_fuel _ _ _ _ (S (length answers))) in Hloop; [|lia].
  unfold poll_until_quit in Hnone. congruence.
Qed.

End EventLoop.

Lemma event_loop_needs_quit_witness :
  (event 0x100 ∉ [event 0x300; no_event; event 0x400; no_event]) /\
  event_loop 0x100 5 false [event 0x300; no_event; event 0x400; no_event]
    = None.
Proof.
  assert (event 0x100 ∉ [event 0x300; no_event; event 0x400; no_event])
    as Hno.
  { rewrite !not_elem_of_cons.
    repeat split; [discriminate.. | apply not_elem_of_nil]. }
  split; [exact Hno |].
  exact (event_loop_needs_quit 0x100 5 _ Hno).
Defined.

Lemma event_loop_ends_after_quit_witness :
  event_loop 0x100 3 false
    [event 0x300; no_event; event 0x100; event 0x400; no_event; event 0x300]
    = Some [event 0x300] /\
  exists taken,
    [event 0x300; no_event; event 0x100; event 0x400; no_event; event 0x300]
      = taken ++ no_event :: [event 0x300] /\
    event 0x100 ∈ taken.
Proof.
  assert (event_loop 0x100 3 false
            [event 0x300; no_event; event 0x100; event 0x400; no_event;
             event 0x300] = Some [event 0x300]) as Hloop by reflexivity.
  split; [exact Hloop |].
  exact (event_loop_ends_after_quit 0x100 3 _ _ Hloop).
Defined.

Lemma poll_until_quit_first_quit_batch_witness :
  poll_until_quit 0x100
    (concat ((fun b => b ++ [no_event]) <$> [[event 0x300]; []])
       ++ [event 0x100; event 0x400] ++ no_event :: [event 0x300])
    = Some [event 0x300].
Proof.
  apply (poll_until_quit_first_quit_batch 0x100 [[event 0x300]; []]
           [event 0x100; event 0x400] [event 0x300]).
  - repeat constructor;
      rewrite ?not_elem_of_cons; repeat split;
      (discriminate || apply not_elem_of_nil).
  - rewrite !not_elem_of_cons.
    repeat split; [discriminate.. | apply not_elem_of_nil].
  - rewrite elem_of_cons. by left.
Defined.

(** ** [main] from start to end *)

Section Main.
Variable SDL_QUIT : Z.

Lemma booted_length : length (mem booted) = 4096%nat.
Proof. vm_compute. reflexivity. Qed.

Lemma loop_booted fuel :
  loop fuel booted =
    if decide (fuel <= 1792)%nat
    then Some (set_pc (512 + 2 * Z.of_nat fuel) booted)
    else None.
Proof.
  case_decide as Hfuel.
  - rewrite loop_in_bounds; [done | exact booted_length | done | done |].
    change (pc booted) with 512. lia.
  - apply loop_out_of_bounds; [exact booted_length | done | |];
      change (pc booted) with 512; lia.
Qed.

(** Property X20. What becomes of a run of [main]: it returns 1 when [SDL_Init] fails or
    no window is created; otherwise it polls until a quit event has closed
    the window; and once the window is closed the interpreter loop makes
    1792 passes over the zeroed program area, [pc] going from 0x200 to the
    end of [mem], and then fetches outside [mem]. *)
Theorem main_outcomes (env : sdl) (fuel : nat) :
  (SDL_Init_result env <> 0 \/ window env = false ->
   run SDL_QUIT env fuel = returned 1) /\
  (SDL_Init_result env = 0 -> window env = true ->
   poll_until_quit SDL_QUIT (polls env) = None ->
   run SDL_QUIT env fuel = polling) /\
  (SDL_Init_result env = 0 -> window env = true ->
   is_Some (poll_until_quit SDL_QUIT (polls env)) ->
   ((fuel <= 1792)%nat ->
    run SDL_QUIT env fuel =
      interpreting (set_pc (512 + 2 * Z.of_nat fuel) booted)) /\
   ((1792 < fuel)%nat -> run SDL_QUIT env fuel = undefined)).
Proof.
  unfold run. rewrite init_booted. split; [|split].
  - intros [Hinit | Hwin].
    + by rewrite decide_True.
    + case_decide; [done |]. by rewrite Hwin.
  - intros Hinit Hwin Hpoll.
    rewrite decide_False by lia. by rewrite Hwin, Hpoll.
  - intros Hinit Hwin [rest Hpoll].
    rewrite decide_False by lia. rewrite Hwin, Hpoll. simpl.
    rewrite loop_booted. split; intros Hfuel.
    + rewrite decide_True by done.
      by rewrite decide_False by (simpl; discriminate).
    + rewrite decide_False by lia. done.
Qed.

End Main.

Lemma main_outcomes_witness :
  run 0x100 (mk_sdl 1 true []) 0 = returned 1 /\
  run 0x100 (mk_sdl 0 true [event 0x300; no_event]) 5 = polling /\
  run 0x100 (mk_sdl 0 true [event 0x100; no_event]) 1792 =
    interpreting (set_pc 4096 booted) /\
  run 0x100 (mk_sdl 0 true [event 0x100; no_event]) 1793 = undefined.
Proof.
  split; [|split; [|split]].
  - apply (main_outcomes 0x100 (mk_sdl 1 true []) 0).
    left. simpl. discriminate.
  - apply (main_outcomes 0x100 (mk_sdl 0 true [event 0x300; no_event]) 5);
      reflexivity.
  - apply (main_outcomes 0x100 (mk_sdl 0 true [event 0x100; no_event]) 1792);
      [reflexivity | reflexivity | by eexists | lia].
  - apply (main_outcomes 0x100 (mk_sdl 0 true [event 0x100; no_event]) 1793);
      [reflexivity | reflexivity | by eexists | lia].
Defined.
